(** * Airtable base replicator: schema export and relay

    A shallow embedding of the two programs of the repository that carry
    logic: the schema exporter ([classifyField], [buildManualInstructions],
    [processSchema] of export-schema.js) and the Cloudflare worker that
    relays browser requests to the Airtable API (worker/index.js).

    JavaScript strings are modelled as [string] (the UTF-8 bytes of the
    text); concatenation, search and replacement by well-formed strings
    agree on both representations. *)

From Stdlib Require Import Ascii String.
From stdpp Require Import gmap strings list fin_maps.

Set Default Proof Using "Type".

(** ** JavaScript values and string methods used by the sources *)

Module Js.

(** The double quote and the line feed, written by code. *)
Definition dq : string := String (ascii_of_nat 34) EmptyString.
Definition nl : string := String (ascii_of_nat 10) EmptyString.

(** [Boolean(x)]: the test behind [x ? a : b], [if (x)], [x || y] and
    [filter(Boolean)].  A missing property reads as [undefined], which
    is [None] here. *)
Class Truthy (A : Type) := truthy : A -> bool.

#[export] Instance truthy_bool : Truthy bool := fun b => b.
#[export] Instance truthy_string : Truthy string :=
  fun s => match s with EmptyString => false | String _ _ => true end.
#[export] Instance truthy_option {A} `{Truthy A} : Truthy (option A) :=
  fun o => match o with Some a => truthy a | None => false end.

(** What a property of the schema may hold besides nothing: a string,
    or a member of [Object.prototype] that a read through a plain
    object reached.  [Inherited "toString"] is the function
    [Object.prototype.toString], and so on for every function of the
    prototype; [Inherited "__proto__"] is what the [__proto__] accessor
    gives for a plain object, [Object.prototype] itself.  All of them
    are objects, hence truthy, and equal ([===], and in a [Set]) only to
    themselves. *)
Inductive Value :=
  | Str (s : string)
  | Inherited (member : string).

#[export] Instance Value_eq_dec : EqDecision Value.
Proof. solve_decision. Defined.

#[export] Instance truthy_Value : Truthy Value :=
  fun v => match v with Str s => truthy s | Inherited _ => true end.

(** [a || b] on two values of one type. *)
Definition or_else {A} `{Truthy A} (a b : A) : A :=
  if truthy a then a else b.

(** [o || d] where [o] may be undefined and [d] is a plain value. *)
Definition or_default {A} `{Truthy A} (o : option A) (d : A) : A :=
  match o with
  | Some a => if truthy a then a else d
  | None => d
  end.

(** [c.toUpperCase()] for one character of ASCII text: the identity
    outside [a-z].  The sources upper-case type names and HTTP method
    names only. *)
Definition upper (c : ascii) : ascii :=
  let n := nat_of_ascii c in
  if (97 <=? n)%nat && (n <=? 122)%nat then ascii_of_nat (n - 32) else c.

(** [s.split("\n")[0]]. *)
Fixpoint first_line (s : string) : string :=
  match s with
  | EmptyString => EmptyString
  | String c s' =>
      if Ascii.eqb c (ascii_of_nat 10) then EmptyString
      else String c (first_line s')
  end.

(** [parts.join(sep)]. *)
Fixpoint join (sep : string) (parts : list string) : string :=
  match parts with
  | [] => EmptyString
  | [p] => p
  | p :: ps => p +:+ sep +:+ join sep ps
  end.

(** [parts.filter(Boolean)] on an array of strings and nulls. *)
Definition filter_Boolean (parts : list (option string)) : list string :=
  omap (fun o => match o with
                 | Some s => if truthy s then Some s else None
                 | None => None
                 end) parts.

(** First occurrence of [pat] in [s]: the text before it and the text
    after it. *)
Fixpoint split_first (pat s : string) : option (string * string) :=
  if String.prefix pat s
  then Some (EmptyString, String.substring (String.length pat)
                            (String.length s - String.length pat) s)
  else match s with
       | EmptyString => None
       | String c s' =>
           match split_first pat s' with
           | Some (b, a) => Some (String c b, a)
           | None => None
           end
       end.

(** GetSubstitution of ECMA-262 for a string pattern (no captures):
    [$$], [$&], [$`] and [$'] are expanded, every other [$] is kept. *)
Fixpoint getSubstitution (matched before after templ : string) : string :=
  match templ with
  | EmptyString => EmptyString
  | String c tl =>
      if Ascii.eqb c "$" then
        match tl with
        | String d tl' =>
            if Ascii.eqb d "$" then
              String "$" (getSubstitution matched before after tl')
            else if Ascii.eqb d "&" then
              matched +:+ getSubstitution matched before after tl'
            else if Ascii.eqb d "`" then
              before +:+ getSubstitution matched before after tl'
            else if Ascii.eqb d "'" then
              after +:+ getSubstitution matched before after tl'
            else String c (getSubstitution matched before after tl)
        | EmptyString => String c EmptyString
        end
      else String c (getSubstitution matched before after tl)
  end.

(** [s.replace(pat, templ)] with a string pattern: only the first
    occurrence is replaced. *)
Definition replace (s pat templ : string) : string :=
  match split_first pat s with
  | Some (b, a) => b +:+ getSubstitution pat b a templ +:+ a
  | None => s
  end.

(** The own property names of [Object.prototype]. *)
Definition OBJECT_PROTOTYPE : list string :=
  ["constructor"; "__defineGetter__"; "__defineSetter__";
   "hasOwnProperty"; "__lookupGetter__"; "__lookupSetter__";
   "isPrototypeOf"; "propertyIsEnumerable"; "toString"; "valueOf";
   "__proto__"; "toLocaleString"].

(** [key in Object.prototype]. *)
Definition inherited (key : string) : bool :=
  existsb (String.eqb key) OBJECT_PROTOTYPE.

(** A plain object, made by [{}], that is only ever assigned strings: a
    [gmap] holds its own properties, and [Object.prototype] stands
    behind it.

    [obj[key] = value] creates or overwrites the own property [key],
    also when the prototype has a function of that name.  The one
    exception is the key [__proto__]: it is an accessor of the
    prototype, whose setter ignores a string, so that the object is left
    as it was. *)
Definition obj_set (key value : string) (obj : gmap string string)
  : gmap string string :=
  if String.eqb key "__proto__" then obj else <[key := value]> obj.

(** [obj[key]]: the own property when there is one, else the member of
    [Object.prototype] of that name when there is one, else
    [undefined]. *)
Definition obj_get (obj : gmap string string) (key : string)
  : option Value :=
  match obj !! key with
  | Some value => Some (Str value)
  | None => if inherited key then Some (Inherited key) else None
  end.

(** [s.startsWith(p)]. *)
Definition startsWith (s p : string) : bool := String.prefix p s.

(** [s.includes(p)]. *)
Definition includes (s p : string) : bool :=
  match split_first p s with Some _ => true | None => false end.

End Js.

Import Js.

(** ** export-schema.js *)

Module Exporter.

(** *** Raw schema, as the metadata endpoint reports it *)

Record RollupResult := { result_formula : option string }.

(** One entry of a select field's [choices]; [choice_rest] holds every
    key other than [id], [name] and [color]. *)
Record Choice := {
  choice_id : option string;
  choice_name : option string;
  choice_color : option string;
  choice_rest : list (string * string)
}.

(** [field.options], with the types the metadata endpoint documents;
    every sub-field may be missing.  [options_rest] holds the keys the
    exporter never reads. *)
Record FieldOptions := {
  isReversed : option bool;
  linkedTableId : option string;
  prefersSingleRecordLink : option bool;
  formula : option string;
  fieldIdInLinkedTable : option string;
  recordLinkFieldId : option string;
  result : option RollupResult;
  choices : option (list Choice);
  options_rest : list (string * string)
}.

(** The object literal [{}]. *)
Definition empty_options : FieldOptions :=
  {| isReversed := None; linkedTableId := None;
     prefersSingleRecordLink := None; formula := None;
     fieldIdInLinkedTable := None; recordLinkFieldId := None;
     result := None; choices := None; options_rest := [] |}.

Record RawField := {
  rf_id : string;
  rf_name : string;
  rf_type : string;
  rf_description : option string;
  rf_options : option FieldOptions
}.

Record RawTable := {
  rt_id : string;
  rt_name : string;
  rt_description : option string;
  rt_primaryFieldId : option string;
  rt_fields : list RawField
}.

Record RawSchema := { rs_tables : list RawTable }.

(** [field.options?.key]. *)
Definition opt {A} (field : RawField) (key : FieldOptions -> option A)
  : option A :=
  rf_options field ≫= key.

(** *** Field classifier *)

Definition NON_CREATABLE_TYPES : list string :=
  ["formula"; "rollup"; "multipleLookupValues"; "count"].

Definition AUTO_SYSTEM_TYPES : list string :=
  ["autoNumber"; "createdTime"; "lastModifiedTime"; "createdBy";
   "lastModifiedBy"].

Definition LINK_TYPE : string := "multipleRecordLinks".

(** [set.has(x)]. *)
Definition has (set : list string) (x : string) : bool :=
  existsb (String.eqb x) set.

Inductive Category := creatable | link | manual | autoSystem | inverseLink.

Definition classifyField (field : RawField) : Category :=
  if has NON_CREATABLE_TYPES (rf_type field) then manual
  else if has AUTO_SYSTEM_TYPES (rf_type field) then autoSystem
  else if String.eqb (rf_type field) LINK_TYPE then
    if truthy (opt field isReversed) then inverseLink else link
  else creatable.

(** *** Placeholder instruction builder *)

Definition capitalize (str : string) : string :=
  match str with
  | EmptyString => EmptyString
  | String c rest => String (upper c) rest
  end.

Definition typeLabel (field : RawField) : string :=
  if String.eqb (rf_type field) "multipleLookupValues" then "Lookup"
  else capitalize (rf_type field).

(** [x ? yes(x) : no] for a property [x] that may be missing. *)
Definition if_truthy {B} (x : option string) (yes : string -> B) (no : B)
  : B :=
  match x with
  | Some s => if truthy s then yes s else no
  | None => no
  end.

(** [x ? `${label}${x}` : null]. *)
Definition labelled (label : string) (x : option string) : option string :=
  if_truthy x (fun s => Some (label +:+ s)) None.

(** [if (!summary) summary = fallback]. *)
Definition unless_empty (summary fallback : string) : string :=
  if truthy summary then summary else fallback.

(** The [switch] that computes [configSummary]. *)
Definition configSummary (field : RawField) : string :=
  let ty := rf_type field in
  if String.eqb ty "formula" then
    if_truthy (opt field formula)
      (fun s => "Formula: " +:+ s)
      "Formula: (not available — check the original base)"
  else if String.eqb ty "rollup" then
    unless_empty
      (join nl (filter_Boolean
         [ labelled "Summarize field: " (opt field fieldIdInLinkedTable);
           labelled "From linked record field: "
             (opt field recordLinkFieldId);
           labelled "Aggregation: "
             (opt field result ≫= result_formula) ]))
      "(check the original base for rollup configuration)"
  else if String.eqb ty "multipleLookupValues" then
    unless_empty
      (join nl (filter_Boolean
         [ labelled "Lookup field: " (opt field fieldIdInLinkedTable);
           labelled "From linked record field: "
             (opt field recordLinkFieldId) ]))
      "(check the original base for lookup configuration)"
  else if String.eqb ty "count" then
    if_truthy (opt field recordLinkFieldId)
      (fun s => "Count records from linked field: " +:+ s)
      "(check the original base for count configuration)"
  else "(check the original base for configuration)".

Record Instructions := {
  description : string;
  cellInstructions : string
}.

Definition buildManualInstructions (field : RawField) : Instructions :=
  let typeLabel := typeLabel field in
  let configSummary := configSummary field in
  {| description :=
       "⚠️ MANUAL SETUP REQUIRED — " +:+ typeLabel +:+ ": "
         +:+ first_line configSummary;
     cellInstructions :=
       join nl
         [ "⚠️ MANUAL SETUP REQUIRED";
           EmptyString;
           "Field type: " +:+ typeLabel
             +:+ " (currently Long Text — you must change it)";
           EmptyString;
           configSummary;
           EmptyString;
           "Steps:";
           "1. Click this field's column header";
           "2. Select " +:+ dq +:+ "Customize field type" +:+ dq;
           "3. Change the type from " +:+ dq +:+ "Long text" +:+ dq
             +:+ " to " +:+ dq +:+ typeLabel +:+ dq;
           "4. Configure using the information above";
           "5. Click " +:+ dq +:+ "Save" +:+ dq;
           "6. Delete this instruction row when you're done with ALL fields in this table"
         ] |}.

(** *** Normalized schema *)

(** The [cleanField] object.  A property that a category never sets is
    [None]; [originalId] to [description] are always set.
    [linkedTableName] holds what the second pass read from
    [tableIdToName], or the raw id: a [Value]. *)
Record NormalizedField := {
  nf_originalId : string;
  nf_name : string;
  nf_type : string;
  nf_description : string;
  nf_options : option FieldOptions;
  nf_linkedTableId : option string;
  nf_prefersSingleRecordLink : option bool;
  nf_linkedTableName : option Value;
  nf_manualType : option string;
  nf_manualDescription : option string;
  nf_manualCellInstructions : option string;
  nf_originalOptions : option FieldOptions
}.

Record NormalizedTable := {
  nt_originalId : string;
  nt_name : string;
  nt_description : string;
  nt_primaryFieldId : option string;
  creatableFields : list NormalizedField;
  linkFields : list NormalizedField;
  manualFields : list NormalizedField;
  autoSystemFields : list NormalizedField;
  inverseLinkFields : list NormalizedField
}.

Record NormalizedSchema := {
  ns_name : string;
  ns_exportedAt : string;
  ns_tableCount : nat;
  ns_tables : list NormalizedTable
}.

(** Property writes on a [cleanField]. *)
Definition set_link (id : option string) (single : bool)
    (f : NormalizedField) : NormalizedField :=
  {| nf_originalId := nf_originalId f; nf_name := nf_name f;
     nf_type := nf_type f; nf_description := nf_description f;
     nf_options := nf_options f;
     nf_linkedTableId := id;
     nf_prefersSingleRecordLink := Some single;
     nf_linkedTableName := nf_linkedTableName f;
     nf_manualType := nf_manualType f;
     nf_manualDescription := nf_manualDescription f;
     nf_manualCellInstructions := nf_manualCellInstructions f;
     nf_originalOptions := nf_originalOptions f |}.

Definition set_manual (label : string) (i : Instructions)
    (original : FieldOptions) (f : NormalizedField) : NormalizedField :=
  {| nf_originalId := nf_originalId f; nf_name := nf_name f;
     nf_type := nf_type f; nf_description := nf_description f;
     nf_options := nf_options f;
     nf_linkedTableId := nf_linkedTableId f;
     nf_prefersSingleRecordLink := nf_prefersSingleRecordLink f;
     nf_linkedTableName := nf_linkedTableName f;
     nf_manualType := Some label;
     nf_manualDescription := Some (description i);
     nf_manualCellInstructions := Some (cellInstructions i);
     nf_originalOptions := Some original |}.

Definition set_linkedTableName (name : option Value)
    (f : NormalizedField) : NormalizedField :=
  {| nf_originalId := nf_originalId f; nf_name := nf_name f;
     nf_type := nf_type f; nf_description := nf_description f;
     nf_options := nf_options f;
     nf_linkedTableId := nf_linkedTableId f;
     nf_prefersSingleRecordLink := nf_prefersSingleRecordLink f;
     nf_linkedTableName := name;
     nf_manualType := nf_manualType f;
     nf_manualDescription := nf_manualDescription f;
     nf_manualCellInstructions := nf_manualCellInstructions f;
     nf_originalOptions := nf_originalOptions f |}.

Definition set_texts (cell desc : option string)
    (f : NormalizedField) : NormalizedField :=
  {| nf_originalId := nf_originalId f; nf_name := nf_name f;
     nf_type := nf_type f; nf_description := nf_description f;
     nf_options := nf_options f;
     nf_linkedTableId := nf_linkedTableId f;
     nf_prefersSingleRecordLink := nf_prefersSingleRecordLink f;
     nf_linkedTableName := nf_linkedTableName f;
     nf_manualType := nf_manualType f;
     nf_manualDescription := desc;
     nf_manualCellInstructions := cell;
     nf_originalOptions := nf_originalOptions f |}.

(** *** First pass of [processSchema]: clean and partition *)

(** [({ name, color }) => { const c = { name }; if (color) c.color =
    color; return c; }] *)
Definition cleanChoice (choice : Choice) : Choice :=
  {| choice_id := None;
     choice_name := choice_name choice;
     choice_color :=
       if truthy (choice_color choice) then choice_color choice else None;
     choice_rest := [] |}.

(** The deep copy of [field.options] with its [choices] stripped. *)
Definition cleanOptions (o : FieldOptions) : FieldOptions :=
  match choices o with
  | Some cs =>
      {| isReversed := isReversed o; linkedTableId := linkedTableId o;
         prefersSingleRecordLink := prefersSingleRecordLink o;
         formula := formula o;
         fieldIdInLinkedTable := fieldIdInLinkedTable o;
         recordLinkFieldId := recordLinkFieldId o;
         result := result o;
         choices := Some (map cleanChoice cs);
         options_rest := options_rest o |}
  | None => o
  end.

Definition cleanField (field : RawField) : NormalizedField :=
  {| nf_originalId := rf_id field;
     nf_name := rf_name field;
     nf_type := rf_type field;
     nf_description := or_default (rf_description field) EmptyString;
     nf_options := cleanOptions <$> rf_options field;
     nf_linkedTableId := None;
     nf_prefersSingleRecordLink := None;
     nf_linkedTableName := None;
     nf_manualType := None;
     nf_manualDescription := None;
     nf_manualCellInstructions := None;
     nf_originalOptions := None |}.

(** The five arrays a table's loop pushes to. *)
Record Partitions := {
  p_creatable : list NormalizedField;
  p_link : list NormalizedField;
  p_manual : list NormalizedField;
  p_inverseLink : list NormalizedField;
  p_autoSystem : list NormalizedField
}.

Definition no_fields : Partitions :=
  {| p_creatable := []; p_link := []; p_manual := [];
     p_inverseLink := []; p_autoSystem := [] |}.

(** The record a raw field is turned into, by its category. *)
Definition normalizeField (field : RawField) : NormalizedField :=
  match classifyField field with
  | link =>
      set_link (opt field linkedTableId)
        (or_default (opt field prefersSingleRecordLink) false)
        (cleanField field)
  | manual =>
      set_manual (typeLabel field) (buildManualInstructions field)
        (default empty_options (rf_options field))
        (cleanField field)
  | creatable | autoSystem | inverseLink => cleanField field
  end.

(** One iteration of [for (const field of table.fields)]. *)
Definition pushField (acc : Partitions) (field : RawField) : Partitions :=
  let f := normalizeField field in
  match classifyField field with
  | creatable =>
      {| p_creatable := p_creatable acc ++ [f]; p_link := p_link acc;
         p_manual := p_manual acc; p_inverseLink := p_inverseLink acc;
         p_autoSystem := p_autoSystem acc |}
  | link =>
      {| p_creatable := p_creatable acc; p_link := p_link acc ++ [f];
         p_manual := p_manual acc; p_inverseLink := p_inverseLink acc;
         p_autoSystem := p_autoSystem acc |}
  | manual =>
      {| p_creatable := p_creatable acc; p_link := p_link acc;
         p_manual := p_manual acc ++ [f];
         p_inverseLink := p_inverseLink acc;
         p_autoSystem := p_autoSystem acc |}
  | autoSystem =>
      {| p_creatable := p_creatable acc; p_link := p_link acc;
         p_manual := p_manual acc; p_inverseLink := p_inverseLink acc;
         p_autoSystem := p_autoSystem acc ++ [f] |}
  | inverseLink =>
      {| p_creatable := p_creatable acc; p_link := p_link acc;
         p_manual := p_manual acc;
         p_inverseLink := p_inverseLink acc ++ [f];
         p_autoSystem := p_autoSystem acc |}
  end.

(** The callback of [rawSchema.tables.map]. *)
Definition processTable (table : RawTable) : NormalizedTable :=
  let acc := fold_left pushField (rt_fields table) no_fields in
  {| nt_originalId := rt_id table;
     nt_name := rt_name table;
     nt_description := or_default (rt_description table) EmptyString;
     nt_primaryFieldId := rt_primaryFieldId table;
     creatableFields := p_creatable acc;
     linkFields := p_link acc;
     manualFields := p_manual acc;
     autoSystemFields := p_autoSystem acc;
     inverseLinkFields := p_inverseLink acc |}.

(** *** Second pass of [processSchema]: resolve references *)

(** [tableIdToName], a plain object filled by one loop over the tables:
    [tableIdToName[table.originalId] = table.name].  A later table with
    the same id overwrites an earlier one. *)
Definition tableIdToName (tables : list NormalizedTable)
  : gmap string string :=
  fold_left
    (fun names table => obj_set (nt_originalId table) (nt_name table) names)
    tables ∅.

(** The property key [obj[k]] reads: an undefined [k] is the key
    ["undefined"]. *)
Definition propertyKey (k : option string) : string :=
  default "undefined" k.

(** [linkField.linkedTableName = tableIdToName[linkField.linkedTableId]
    || linkField.linkedTableId].  The read goes through the prototype of
    [tableIdToName] when the object has no own property of that name. *)
Definition resolveLink (names : gmap string string)
    (linkField : NormalizedField) : NormalizedField :=
  set_linkedTableName
    (or_else (obj_get names (propertyKey (nf_linkedTableId linkField)))
       (Str <$> nf_linkedTableId linkField))
    linkField.

(** Both [replace] calls of one match.  Every record of [manualFields]
    carries the two texts ([manual_texts_set] below), so the calls
    always have a string to work on. *)
Definition replaceBoth (id templ : string) (manualField : NormalizedField)
  : NormalizedField :=
  set_texts
    ((fun text => replace text id templ)
       <$> nf_manualCellInstructions manualField)
    ((fun text => replace text id templ)
       <$> nf_manualDescription manualField)
    manualField.

(** [`"${f.name}" field`] *)
Definition fieldRef (name : string) : string :=
  dq +:+ name +:+ dq +:+ " field".

(** [`"${linkedField.name}" in "${linkedTable.name}"`] *)
Definition fieldInTableRef (field table : string) : string :=
  dq +:+ field +:+ dq +:+ " in " +:+ dq +:+ table +:+ dq.

(** [if (manualField.originalOptions?.recordLinkFieldId) { ... }] *)
Definition resolveRecordLink (tables : list NormalizedTable)
    (manualField : NormalizedField) : NormalizedField :=
  if_truthy (nf_originalOptions manualField ≫= recordLinkFieldId)
    (fun id =>
       fold_left
         (fun mf t =>
            fold_left
              (fun mf f =>
                 if String.eqb (nf_originalId f) id
                 then replaceBoth id (fieldRef (nf_name f)) mf
                 else mf)
              (creatableFields t ++ linkFields t) mf)
         tables manualField)
    manualField.

(** [f.originalId === linkedTableId && f.linkedTableId], where
    [linkedTableId] is the manual field's [recordLinkFieldId] and may be
    undefined: the id of the table [f] points to, when [f] is the link
    field asked for. *)
Definition linkTarget (linkedTableId : option string) (f : NormalizedField)
  : option string :=
  match linkedTableId with
  | Some id =>
      if String.eqb (nf_originalId f) id
      then if_truthy (nf_linkedTableId f) Some None
      else None
  | None => None
  end.

(** [if (manualField.originalOptions?.fieldIdInLinkedTable) { ... }] *)
Definition resolveLinkedField (tables : list NormalizedTable)
    (manualField : NormalizedField) : NormalizedField :=
  if_truthy (nf_originalOptions manualField ≫= fieldIdInLinkedTable)
    (fun fieldId =>
       let linkedTableId :=
         nf_originalOptions manualField ≫= recordLinkFieldId in
       fold_left
         (fun mf t =>
            fold_left
              (fun mf f =>
                 match linkTarget linkedTableId f with
                 | Some target =>
                     match find (fun tt =>
                              String.eqb (nt_originalId tt) target) tables
                     with
                     | Some linkedTable =>
                         match find (fun ff =>
                                  String.eqb (nf_originalId ff) fieldId)
                                 (creatableFields linkedTable
                                    ++ linkFields linkedTable
                                    ++ manualFields linkedTable)
                         with
                         | Some linkedField =>
                             replaceBoth fieldId
                               (fieldInTableRef (nf_name linkedField)
                                  (nt_name linkedTable)) mf
                         | None => mf
                         end
                     | None => mf
                     end
                 | None => mf
                 end)
              (linkFields t ++ inverseLinkFields t) mf)
         tables manualField)
    manualField.

(** The body of [for (const manualField of table.manualFields)]. *)
Definition resolveManual (tables : list NormalizedTable)
    (manualField : NormalizedField) : NormalizedField :=
  resolveLinkedField tables (resolveRecordLink tables manualField).

Definition with_linkFields (fs : list NormalizedField)
    (t : NormalizedTable) : NormalizedTable :=
  {| nt_originalId := nt_originalId t; nt_name := nt_name t;
     nt_description := nt_description t;
     nt_primaryFieldId := nt_primaryFieldId t;
     creatableFields := creatableFields t;
     linkFields := fs;
     manualFields := manualFields t;
     autoSystemFields := autoSystemFields t;
     inverseLinkFields := inverseLinkFields t |}.

Definition with_manualFields (fs : list NormalizedField)
    (t : NormalizedTable) : NormalizedTable :=
  {| nt_originalId := nt_originalId t; nt_name := nt_name t;
     nt_description := nt_description t;
     nt_primaryFieldId := nt_primaryFieldId t;
     creatableFields := creatableFields t;
     linkFields := linkFields t;
     manualFields := fs;
     autoSystemFields := autoSystemFields t;
     inverseLinkFields := inverseLinkFields t |}.

(** The pass writes into the objects the [tables] array holds, so a
    table visited later reads records an earlier iteration has already
    rewritten.  [tables] is threaded through the loops as the state. *)

(** [for (const linkField of table.linkFields)] on table [i]. *)
Definition resolveLinksAt (names : gmap string string) (i : nat)
    (tables : list NormalizedTable) : list NormalizedTable :=
  alter (fun t => with_linkFields (resolveLink names <$> linkFields t) t)
    i tables.

(** One iteration of [for (const manualField of table.manualFields)]:
    field [j] of table [i], resolved against the current [tables]. *)
Definition resolveManualAt (i j : nat) (tables : list NormalizedTable)
  : list NormalizedTable :=
  alter (fun t =>
           with_manualFields
             (alter (resolveManual tables) j (manualFields t)) t)
    i tables.

(** One iteration of the outer [for (const table of tables)]. *)
Definition resolveTableAt (names : gmap string string)
    (tables : list NormalizedTable) (i : nat) : list NormalizedTable :=
  let tables := resolveLinksAt names i tables in
  fold_left (fun tables j => resolveManualAt i j tables)
    (seq 0 (length (from_option manualFields [] (tables !! i))))
    tables.

Definition resolveReferences (tables : list NormalizedTable)
  : list NormalizedTable :=
  let names := tableIdToName tables in
  fold_left (resolveTableAt names) (seq 0 (length tables)) tables.

(** [exportedAt] is [new Date().toISOString()]; the clock reading is
    the argument [now]. *)
Definition processSchema (now : string) (rawSchema : RawSchema)
    (baseName : option string) : NormalizedSchema :=
  let tables := resolveReferences (processTable <$> rs_tables rawSchema) in
  {| ns_name := or_default baseName "Airtable Base";
     ns_exportedAt := now;
     ns_tableCount := length tables;
     ns_tables := tables |}.

End Exporter.

(** ** worker/index.js *)

Module Worker.

(** The incoming request, as far as the worker reads it.  [Headers.get]
    ignores the case of a header name; [req_headers] is keyed by the
    spelling the worker asks for.  [req_text] is what [await
    request.text()] yields. *)
Record Request := {
  req_method : string;
  req_headers : gmap string string;
  req_text : string
}.

(** [request.headers.get(name)]; a missing header is [null]. *)
Definition get (request : Request) (name : string) : option string :=
  req_headers request !! name.

(** What a [Response] is constructed from: nothing, a text, or
    [JSON.stringify({ error })]. *)
Inductive Body := NoBody | Text (text : string) | ErrorJson (error : string).

Record Response := {
  status : nat;
  headers : list (string * string);
  body : Body
}.

(** The second argument of the upstream [fetch]. *)
Record FetchOpts := {
  fo_method : string;
  fo_headers : list (string * string);
  fo_body : option string
}.

(** What [await fetch(...)] followed by [await airtableRes.text()]
    comes back with: a status and a body, or an exception. *)
Inductive Upstream :=
| Replied (status : nat) (text : string)
| Threw (message : string).

(** A handler either answers, or fetches upstream and goes on with what
    came back. *)
Inductive io (A : Type) :=
| Ret (a : A)
| UpstreamFetch (url : string) (opts : FetchOpts) (k : Upstream -> io A).
Arguments Ret {A} a.
Arguments UpstreamFetch {A} url opts k.

(** Running a handler against an upstream: its answer and the upstream
    calls it made, in order. *)
Fixpoint run {A} (upstream : string -> FetchOpts -> Upstream) (m : io A)
  : A * list (string * FetchOpts) :=
  match m with
  | Ret a => (a, [])
  | UpstreamFetch url opts k =>
      let (a, calls) := run upstream (k (upstream url opts)) in
      (a, (url, opts) :: calls)
  end.

Definition ALLOWED_ORIGINS : list string := ["*"].

Definition ALLOW_METHODS : string := "POST, OPTIONS".
Definition ALLOW_HEADERS : string :=
  "Content-Type, Authorization, X-Airtable-Target-Url, X-Airtable-Method".

(** [array.includes(x)]. *)
Definition array_includes (array : list string) (x : string) : bool :=
  existsb (String.eqb x) array.

Section Relay.
(** The allowlist is a constant of the source meant to be edited; the
    functions are stated over any value of it. *)
Variable allowed : list string.

Definition isOriginAllowed (origin : string) : bool :=
  if array_includes allowed "*" then true
  else array_includes allowed origin.

(** [jsonResponse(body, status, origin = "*")], [body] being
    [{ error }]. *)
Definition jsonResponse (error : string) (status : nat)
    (origin : option string) : Response :=
  {| status := status;
     headers := [("Content-Type", "application/json");
                 ("Access-Control-Allow-Origin", default "*" origin)];
     body := ErrorJson error |}.

Definition handlePreflight (request : Request) : Response :=
  let origin := or_default (get request "Origin") EmptyString in
  if negb (isOriginAllowed origin) then
    {| status := 403; headers := []; body := NoBody |}
  else
    {| status := 204;
       headers := [("Access-Control-Allow-Origin",
                    or_else origin "*");
                   ("Access-Control-Allow-Methods", ALLOW_METHODS);
                   ("Access-Control-Allow-Headers", ALLOW_HEADERS);
                   ("Access-Control-Max-Age", "86400")];
       body := NoBody |}.

(** [new Response(text, { status, headers })] with a text body, on the
    workers runtime.  The constructor throws a RangeError for a status
    outside 200..599.  For a status that admits no body it throws a
    TypeError when the text is not empty; an empty text it takes for no
    body, and builds the response.  The messages are the runtime's. *)
Definition null_body_status (status : nat) : bool :=
  existsb (Nat.eqb status) [101; 103; 204; 205; 304].

Definition new_Response (text : string) (status : nat)
    (headers : list (string * string)) : Response + string :=
  if negb ((200 <=? status) && (status <=? 599)) then
    inr "Responses may only be constructed with status codes in the range 200 to 599, inclusive."
  else if null_body_status status then
    if truthy text then
      inr "Response with null body status (101, 204, 205, or 304) cannot have a body."
    else inl {| status := status; headers := headers; body := NoBody |}
  else inl {| status := status; headers := headers; body := Text text |}.

(** [s.toUpperCase()], exact on the Latin-1 text a header value is. *)
Fixpoint toUpperCase (s : string) : string :=
  match s with
  | EmptyString => EmptyString
  | String c s' => String (upper c) (toUpperCase s')
  end.

(** The [try { ... } catch (err) { ... }] around the upstream call. *)
Definition relayed (origin : string) (reply : Upstream) : Response :=
  let failed message :=
    jsonResponse ("Proxy fetch failed: " +:+ message) 502 (Some origin) in
  match reply with
  | Replied status responseBody =>
      match new_Response responseBody status
              [("Content-Type", "application/json");
               ("Access-Control-Allow-Origin", or_else origin "*");
               ("Access-Control-Allow-Methods", ALLOW_METHODS);
               ("Access-Control-Allow-Headers", ALLOW_HEADERS)]
      with
      | inl response => response
      | inr message => failed message
      end
  | Threw message => failed message
  end.

Definition invalid_target : Response :=
  jsonResponse
    "Invalid or missing X-Airtable-Target-Url. Must start with https://api.airtable.com/"
    400 None.

(** The part of the handler after its checks: "Forward to Airtable". *)
Definition forward (request : Request) (origin airtableMethod
    targetUrl : string) : io Response :=
  let authHeader := get request "Authorization" in
  let fetchHeaders :=
    ("Content-Type", "application/json")
      :: (if truthy authHeader
          then [("Authorization", default EmptyString authHeader)]
          else []) in
  let fetchOpts :=
    {| fo_method := airtableMethod;
       fo_headers := fetchHeaders;
       fo_body :=
         if array_includes ["POST"; "PATCH"; "PUT"]
              (toUpperCase airtableMethod)
         then Some (req_text request) else None |} in
  UpstreamFetch targetUrl fetchOpts
    (fun reply => Ret (relayed origin reply)).

(** The worker's [fetch(request)] handler. *)
Definition fetch (request : Request) : io Response :=
  if String.eqb (req_method request) "OPTIONS" then
    Ret (handlePreflight request)
  else if negb (String.eqb (req_method request) "POST") then
    Ret (jsonResponse "Method not allowed. Use POST." 405 None)
  else
    let origin := or_default (get request "Origin") EmptyString in
    if negb (isOriginAllowed origin) then
      Ret (jsonResponse "Origin not allowed" 403 None)
    else
      let targetUrl := get request "X-Airtable-Target-Url" in
      let airtableMethod :=
        or_default (get request "X-Airtable-Method") "POST" in
      match targetUrl with
      | Some url =>
          if negb (truthy url)
             || negb (startsWith url "https://api.airtable.com/")
          then Ret invalid_target
          else forward request origin airtableMethod url
      | None => Ret invalid_target
      end.

(** The handler of the deployed worker runs against a live upstream:
    the response and the upstream calls of one request. *)
Definition serve (upstream : string -> FetchOpts -> Upstream)
    (request : Request) : Response * list (string * FetchOpts) :=
  run upstream (fetch request).

End Relay.

End Worker.

(** ** generate-html.js *)

Module Generator.
Import Exporter.

(** The generator works on a schema of the shape the exporter builds: a
    [NormalizedSchema].  A [linkedTableName] that is no string is
    truthy and equal to no table's name. *)

(** [deps.add(x)] on a [Set]: a value already there keeps its place, a
    new one goes last.  The set is kept as the list of its values in
    insertion order, the order [for (const depName of deps)] walks. *)
Definition Set_add (x : Value) (set : list Value) : list Value :=
  if decide (x ∈ set) then set else set ++ [x].

(** [v === s] where [s] is a string: no object is a string. *)
Definition is_string (v : Value) (s : string) : bool :=
  match v with
  | Str s' => String.eqb s' s
  | Inherited _ => false
  end.

(** [a === b] where [a] may be undefined and [b] is a string. *)
Definition strict_eq (a : option Value) (b : string) : bool :=
  match a with
  | Some v => is_string v b
  | None => false
  end.

Definition getTableDependencies (table : NormalizedTable)
    (allTables : list NormalizedTable) : list Value :=
  let deps :=
    fold_left
      (fun deps linkField =>
         if truthy (nf_linkedTableName linkField)
            && negb (strict_eq (nf_linkedTableName linkField)
                       (nt_name table))
         then Set_add
                (default (Str EmptyString) (nf_linkedTableName linkField))
                deps
         else deps)
      (linkFields table) [] in
  fold_left
    (fun deps t =>
       fold_left
         (fun deps lf =>
            if strict_eq (nf_linkedTableName lf) (nt_name table)
               && negb (String.eqb (nt_name t) (nt_name table))
            then Set_add (Str (nt_name t)) deps
            else deps)
         (linkFields t) deps)
    allTables deps.

(** The object [createPerTableSchema] returns. *)
Record PerTableSchema := {
  pt_name : string;
  pt_exportedAt : string;
  pt_tableCount : nat;
  pt_tables : list NormalizedTable;
  pt_primaryTable : string
}.

Definition createPerTableSchema (table : NormalizedTable)
    (fullSchema : NormalizedSchema) : PerTableSchema :=
  let deps := getTableDependencies table (ns_tables fullSchema) in
  let includedTables :=
    fold_left
      (fun includedTables depName =>
         match find (fun t => is_string depName (nt_name t))
                 (ns_tables fullSchema)
         with
         | Some depTable => includedTables ++ [depTable]
         | None => includedTables
         end)
      deps [table] in
  {| pt_name := ns_name fullSchema +:+ " — " +:+ nt_name table;
     pt_exportedAt := ns_exportedAt fullSchema;
     pt_tableCount := length includedTables;
     pt_tables := includedTables;
     pt_primaryTable := nt_name table |}.

(** [sanitizeFilename] works on the UTF-16 code units of the name: its
    regular expression has no [u] flag, so every unit outside the class
    is replaced on its own. *)
Definition utf16 := list N.

(** The class [[a-zA-Z0-9_-]]. *)
Definition in_class (u : N) : bool :=
  ((97 <=? u) && (u <=? 122) || (65 <=? u) && (u <=? 90)
   || (48 <=? u) && (u <=? 57) || (u =? 95) || (u =? 45))%N.

(** [toLowerCase()] on one unit of ASCII text; after the replacement the
    name holds nothing else. *)
Definition lower_unit (u : N) : N :=
  if ((65 <=? u) && (u <=? 90))%N then (u + 32)%N else u.

Definition sanitizeFilename (name : utf16) : utf16 :=
  lower_unit <$> ((fun u => if in_class u then u else 45%N) <$> name).

Definition SCHEMA_PLACEHOLDER : string := "__SCHEMA_DATA_PLACEHOLDER__".
Definition PROXY_PLACEHOLDER : string := "__PROXY_URL_PLACEHOLDER__".

(** [generateHtml(template, schema, proxyUrl)]; [schemaJson] is
    [JSON.stringify(schema)]. *)
Definition generateHtml (template schemaJson proxyUrl : string) : string :=
  let html := replace template SCHEMA_PLACEHOLDER schemaJson in
  replace html PROXY_PLACEHOLDER proxyUrl.

End Generator.

(** ** What the second pass reads *)

Module View.
Import Exporter.

(** The second pass reads, of the records it walks over, only
    [originalId], [name] and [linkedTableId]; it writes
    [linkedTableName] and the two manual texts.  Two records with the
    same three read properties look alike to it. *)
Definition alike (f g : NormalizedField) : Prop :=
  nf_originalId f = nf_originalId g
  /\ nf_name f = nf_name g
  /\ nf_linkedTableId f = nf_linkedTableId g.

Definition alike_table (t u : NormalizedTable) : Prop :=
  nt_originalId t = nt_originalId u
  /\ nt_name t = nt_name u
  /\ Forall2 alike (creatableFields t) (creatableFields u)
  /\ Forall2 alike (linkFields t) (linkFields u)
  /\ Forall2 alike (manualFields t) (manualFields u)
  /\ Forall2 alike (inverseLinkFields t) (inverseLinkFields u).

(** What one iteration of the outer loop does to its table, every read
    going to the tables as they were before the pass. *)
Definition resolveTable (tables : list NormalizedTable)
    (t : NormalizedTable) : NormalizedTable :=
  with_manualFields (resolveManual tables <$> manualFields t)
    (with_linkFields
       (resolveLink (tableIdToName tables) <$> linkFields t) t).

End View.

(** ** Vocabulary of the properties *)

Module Props.
Import Exporter View.

#[export] Instance Category_eq_dec : EqDecision Category.
Proof. solve_decision. Defined.

(** The array of a normalized table that holds a category. *)
Definition partition (c : Category) (t : NormalizedTable)
  : list NormalizedField :=
  match c with
  | creatable => creatableFields t
  | link => linkFields t
  | manual => manualFields t
  | autoSystem => autoSystemFields t
  | inverseLink => inverseLinkFields t
  end.

Definition categories : list Category :=
  [creatable; link; manual; autoSystem; inverseLink].

(** The raw fields of a category, in the table's order. *)
Definition of_category (c : Category) (fields : list RawField)
  : list RawField :=
  filter (fun field => classifyField field = c) fields.

(** The five arrays of a table, one after the other. *)
Definition all_fields (t : NormalizedTable) : list NormalizedField :=
  categories ≫= (fun c => partition c t).

(** The part of a normalized record every category has: what
    [cleanField] holds before the [switch]. *)
Definition common (f : NormalizedField) : NormalizedField :=
  {| nf_originalId := nf_originalId f; nf_name := nf_name f;
     nf_type := nf_type f; nf_description := nf_description f;
     nf_options := nf_options f;
     nf_linkedTableId := None; nf_prefersSingleRecordLink := None;
     nf_linkedTableName := None; nf_manualType := None;
     nf_manualDescription := None; nf_manualCellInstructions := None;
     nf_originalOptions := None |}.

(** The category a normalized record belongs to, read off its [type]
    and [options]. *)
Definition category_of (f : NormalizedField) : Category :=
  classifyField
    {| rf_id := nf_originalId f; rf_name := nf_name f;
       rf_type := nf_type f; rf_description := None;
       rf_options := nf_options f |}.

(** The record the exporter writes out for a raw field of category
    [c], [tables] being the tables of the first pass. *)
Definition exported (tables : list NormalizedTable) (c : Category)
    (field : RawField) : NormalizedField :=
  match c with
  | link => resolveLink (tableIdToName tables) (normalizeField field)
  | manual => resolveManual tables (normalizeField field)
  | creatable | autoSystem | inverseLink => normalizeField field
  end.

(** The tables of the first pass. *)
Definition firstPass (rawSchema : RawSchema) : list NormalizedTable :=
  processTable <$> rs_tables rawSchema.

(** The tables of a schema with a given id. *)
Definition tables_with_id (tables : list NormalizedTable) (id : string)
  : list NormalizedTable :=
  filter (fun t => nt_originalId t = id) tables.


(** C7, its part on link fields: what a link field says about its target
    can be followed inside the schema.  Its [linkedTableName] is the name
    of a table of the schema, and a table id it carries is the
    [originalId] of a table of the schema. *)
Definition self_contained (tables : list NormalizedTable) : Prop :=
  forall t f,
    t ∈ tables -> f ∈ linkFields t ->
    (exists target,
       target ∈ tables
       /\ nf_linkedTableName f = Some (Str (nt_name target)))
    /\ (forall id,
          nf_linkedTableId f = Some id
          \/ nf_options f ≫= linkedTableId = Some id ->
          exists target, target ∈ tables /\ nt_originalId target = id).

(** The table whose name [tableIdToName] holds under a key: the last
    one with that id, and none under [__proto__], a key no assignment
    of a string reaches. *)
Definition stored (tables : list NormalizedTable) (key : string)
  : option NormalizedTable :=
  if String.eqb key "__proto__" then None
  else last (tables_with_id tables key).

(** The name a link field ends up with, read against any tables that
    look like those of the first pass. *)
Definition target_name (tables : list NormalizedTable)
    (raw : option string) : option Value :=
  let key := propertyKey raw in
  match stored tables key with
  | Some target =>
      if truthy (nt_name target) then Some (Str (nt_name target))
      else Str <$> raw
  | None => if inherited key then Some (Inherited key) else Str <$> raw
  end.

(** Every link field of the raw schema points to a table of the schema. *)
Definition links_closed (rawSchema : RawSchema) : Prop :=
  Forall
    (fun table =>
       Forall
         (fun field =>
            classifyField field = link ->
            Exists
              (fun target => opt field linkedTableId = Some (rt_id target))
              (rs_tables rawSchema))
         (rt_fields table))
    (rs_tables rawSchema).

(** Every table of the raw schema has a name. *)
Definition tables_named (rawSchema : RawSchema) : Prop :=
  Forall (fun table => rt_name table <> EmptyString) (rs_tables rawSchema).

(** No table of the raw schema has the id [__proto__], the one key
    under which [tableIdToName] stores nothing. *)
Definition ids_stored (rawSchema : RawSchema) : Prop :=
  Forall (fun table => rt_id table <> "__proto__") (rs_tables rawSchema).

(** A normalized choice next to the raw one: the same name, the color
    when the raw choice has one, no id and no other key. *)
Definition stripped (raw c : Choice) : Prop :=
  choice_name c = choice_name raw
  /\ choice_color c
     = (if truthy (choice_color raw) then choice_color raw else None)
  /\ choice_id c = None
  /\ choice_rest c = [].

(** The sub-fields of [options] the instruction builder looks for, by
    manual type. *)
Definition expected (field : RawField) : list (option string) :=
  if String.eqb (rf_type field) "formula" then [opt field formula]
  else if String.eqb (rf_type field) "rollup" then
    [opt field fieldIdInLinkedTable; opt field recordLinkFieldId;
     opt field result ≫= result_formula]
  else if String.eqb (rf_type field) "multipleLookupValues" then
    [opt field fieldIdInLinkedTable; opt field recordLinkFieldId]
  else if String.eqb (rf_type field) "count" then
    [opt field recordLinkFieldId]
  else [].

(** None of the expected sub-fields is there. *)
Definition unconfigured (field : RawField) : Prop :=
  Forall (fun x => truthy x = false) (expected field).

(** *** References in the manual instructions *)

(** One [replace] per reference, each on the result of the one before. *)
Definition replaceEach (id : string) (refs : list string) (text : string)
  : string :=
  fold_left (fun text ref => replace text id ref) refs text.

(** The references a [recordLinkFieldId] resolves to: one for every
    record of any table's [creatableFields] and [linkFields] with that
    [originalId], in the order of the tables. *)
Definition recordLinkRefs (tables : list NormalizedTable) (id : string)
  : list string :=
  (fun f => fieldRef (nf_name f))
    <$> filter (fun f => nf_originalId f = id)
          (tables ≫= (fun t => creatableFields t ++ linkFields t)).

(** The reference a [fieldIdInLinkedTable] resolves to through the link
    record [f]: [f] must be the record the manual field's
    [recordLinkFieldId] names and carry a non-empty top-level
    [linkedTableId]; that id must be the [originalId] of a table; and the
    first such table must hold, among its [creatableFields], [linkFields]
    and [manualFields], a record whose [originalId] is the field id. *)
Definition linkedFieldRef (tables : list NormalizedTable)
    (link : option string) (fieldId : string) (f : NormalizedField)
  : option string :=
  if decide (link = Some (nf_originalId f)) then
    match nf_linkedTableId f with
    | Some target =>
        if decide (target = EmptyString) then None
        else
          linkedTable
            ← find (fun tt => String.eqb (nt_originalId tt) target) tables;
          linkedField
            ← find (fun ff => String.eqb (nf_originalId ff) fieldId)
                (creatableFields linkedTable ++ linkFields linkedTable
                   ++ manualFields linkedTable);
          Some (fieldInTableRef (nf_name linkedField) (nt_name linkedTable))
    | None => None
    end
  else None.

(** One reference for every record of any table's [linkFields] and
    [inverseLinkFields] that leads to one. *)
Definition linkedFieldRefs (tables : list NormalizedTable)
    (link : option string) (fieldId : string) : list string :=
  omap (linkedFieldRef tables link fieldId)
    (tables ≫= (fun t => linkFields t ++ inverseLinkFields t)).

(** An instruction text after the second pass, [o] being the manual
    field's original options. *)
Definition resolved_text (tables : list NormalizedTable) (o : FieldOptions)
    (text : string) : string :=
  let text :=
    if_truthy (recordLinkFieldId o)
      (fun id => replaceEach id (recordLinkRefs tables id) text) text in
  if_truthy (fieldIdInLinkedTable o)
    (fun id =>
       replaceEach id (linkedFieldRefs tables (recordLinkFieldId o) id) text)
    text.

(** C5 as it is stated: the referenced field is looked for in every
    table's [creatableFields], [linkFields] and [manualFields]. *)
Definition locate (tables : list NormalizedTable) (id : string)
  : option (NormalizedTable * NormalizedField) :=
  find (fun p => String.eqb (nf_originalId p.2) id)
    (tables ≫= (fun t =>
       (fun f => (t, f))
         <$> (creatableFields t ++ linkFields t ++ manualFields t))).

Definition stated_text (tables : list NormalizedTable) (o : FieldOptions)
    (text : string) : string :=
  let text :=
    if_truthy (recordLinkFieldId o)
      (fun id =>
         match locate tables id with
         | Some (_, f) => replace text id (fieldRef (nf_name f))
         | None => text
         end) text in
  if_truthy (fieldIdInLinkedTable o)
    (fun id =>
       match locate tables id with
       | Some (t, f) =>
           replace text id (fieldInTableRef (nf_name f) (nt_name t))
       | None => text
       end) text.

(** The manual fields of the output carry the texts [text_of] computes
    from the builder's. *)
Definition manual_texts
    (text_of : list NormalizedTable -> FieldOptions -> string -> string)
    (rawSchema : RawSchema) (out : list NormalizedTable) : Prop :=
  Forall2
    (fun table t =>
       Forall2
         (fun field f =>
            let o := default empty_options (rf_options field) in
            let i := buildManualInstructions field in
            nf_manualCellInstructions f
            = Some (text_of out o (cellInstructions i))
            /\ nf_manualDescription f
               = Some (text_of out o (description i)))
         (of_category manual (rt_fields table)) (manualFields t))
    (rs_tables rawSchema) out.

(** A replacement text without [$]: [String.replace] inserts it as it
    is. *)
Fixpoint dollar_free (templ : string) : bool :=
  match templ with
  | EmptyString => true
  | String c tl => negb (Ascii.eqb c "$") && dollar_free tl
  end.

(** Nothing in the schema matches the references of the options [o]. *)
Definition unmatched (tables : list NormalizedTable) (o : FieldOptions)
  : Prop :=
  (forall id,
     recordLinkFieldId o = Some id -> recordLinkRefs tables id = [])
  /\ (forall id,
        fieldIdInLinkedTable o = Some id ->
        linkedFieldRefs tables (recordLinkFieldId o) id = []).

(** *** Sample schemas *)

Definition no_options : option FieldOptions := None.

Definition field_of (id name type : string) (o : option FieldOptions)
  : RawField :=
  {| rf_id := id; rf_name := name; rf_type := type;
     rf_description := None; rf_options := o |}.

Definition table_of (id name : string) (fields : list RawField) : RawTable :=
  {| rt_id := id; rt_name := name; rt_description := None;
     rt_primaryFieldId := None; rt_fields := fields |}.

(** [{ linkedTableId }] *)
Definition link_to (table : string) : option FieldOptions :=
  Some {| isReversed := None; linkedTableId := Some table;
          prefersSingleRecordLink := None; formula := None;
          fieldIdInLinkedTable := None; recordLinkFieldId := None;
          result := None; choices := None; options_rest := [] |}.

(** [{ fieldIdInLinkedTable, recordLinkFieldId }], either of which the
    metadata endpoint may report as null. *)
Definition looks_up (field link : option string) : option FieldOptions :=
  Some {| isReversed := None; linkedTableId := None;
          prefersSingleRecordLink := None; formula := None;
          fieldIdInLinkedTable := field; recordLinkFieldId := link;
          result := None; choices := None; options_rest := [] |}.

(** The scenario of the specification: table B links to table A and
    rolls up A's Score. *)
Definition scenario : RawSchema :=
  {| rs_tables :=
       [ table_of "tblA" "A"
           [ field_of "fldA1" "Name" "singleLineText" no_options;
             field_of "fldA2" "Score" "number" no_options ];
         table_of "tblB" "B"
           [ field_of "fldB1" "Name" "singleLineText" no_options;
             field_of "fldB2" "Owner" "multipleRecordLinks" (link_to "tblA");
             field_of "fldB3" "Total" "rollup"
               (looks_up (Some "fldA2") (Some "fldB2")) ] ] |}.


(** A link to a table the export does not contain. *)
Definition dangling_link : RawSchema :=
  {| rs_tables :=
       [ table_of "tblB" "B"
           [ field_of "fldB1" "Owner" "multipleRecordLinks"
               (link_to "tblGone") ] ] |}.

(** Tables and links named like members of [Object.prototype]: no
    table has the id [constructor], a table has the id [toString], and
    the table with the id [__proto__] is the one [tableIdToName] cannot
    store. *)
Definition prototype_links : RawSchema :=
  {| rs_tables :=
       [ table_of "__proto__" "P"
           [ field_of "fldP1" "Name" "singleLineText" no_options ];
         table_of "toString" "T"
           [ field_of "fldT1" "Name" "singleLineText" no_options ];
         table_of "tblB" "B"
           [ field_of "fldB1" "Maker" "multipleRecordLinks"
               (link_to "constructor");
             field_of "fldB2" "Parent" "multipleRecordLinks"
               (link_to "__proto__");
             field_of "fldB3" "Text" "multipleRecordLinks"
               (link_to "toString") ] ] |}.

(** Two named tables, one of them with the id [__proto__], and a link to
    it. *)
Definition proto_table : RawSchema :=
  {| rs_tables :=
       [ table_of "__proto__" "P"
           [ field_of "fldP1" "Name" "singleLineText" no_options ];
         table_of "tblB" "B"
           [ field_of "fldB1" "Parent" "multipleRecordLinks"
               (link_to "__proto__") ] ] |}.

(** A lookup of A's Score whose link field the endpoint reports as
    null. *)
Definition orphan_lookup : RawSchema :=
  {| rs_tables :=
       [ table_of "tblA" "A"
           [ field_of "fldA1" "Name" "singleLineText" no_options;
             field_of "fldA2" "Score" "number" no_options ];
         table_of "tblB" "B"
           [ field_of "fldB1" "Name" "singleLineText" no_options;
             field_of "fldB2" "Scores" "multipleLookupValues"
               (looks_up (Some "fldA2") None) ] ] |}.

(** The array of the loop's accumulator that holds a category. *)
Definition pushed (c : Category) (acc : Partitions)
  : list NormalizedField :=
  match c with
  | creatable => p_creatable acc
  | link => p_link acc
  | manual => p_manual acc
  | autoSystem => p_autoSystem acc
  | inverseLink => p_inverseLink acc
  end.

End Props.

(** ** Vocabulary of the relay's properties *)

Module RelayProps.
Import Worker.

Definition TARGET_HEADER : string := "X-Airtable-Target-Url".
Definition METHOD_HEADER : string := "X-Airtable-Method".
Definition CORS_HEADER : string := "Access-Control-Allow-Origin".
Definition UPSTREAM_ORIGIN : string := "https://api.airtable.com/".

(** A response header, looked up by name. *)
Definition header (response : Response) (name : string) : option string :=
  snd <$> find (fun h => String.eqb (fst h) name) (headers response).

(** An error status: 4xx or 5xx. *)
Definition is_error (response : Response) : Prop :=
  400 <= status response.

(** The target-URL header is missing or does not start with the upstream
    origin. *)
Definition target_outside (request : Request) : Prop :=
  match get request TARGET_HEADER with
  | Some url => startsWith url UPSTREAM_ORIGIN = false
  | None => True
  end.

(** A request with the given method and headers and an empty body. *)
Definition request_of (method : string) (hs : list (string * string))
  : Request :=
  {| req_method := method; req_headers := list_to_map hs;
     req_text := EmptyString |}.

(** An upstream that answers every call with 200 and an empty object. *)
Definition upstream_ok (url : string) (opts : FetchOpts) : Upstream :=
  Replied 200 "{}".

(** An upstream that answers every call with 204 and no content. *)
Definition upstream_no_content (url : string) (opts : FetchOpts)
  : Upstream :=
  Replied 204 EmptyString.

(** Three requests: a POST aimed outside the upstream, a preflight as a
    browser sends it, and a POST that names no method. *)
Definition stray_post : Request :=
  request_of "POST" [(TARGET_HEADER, "https://example.org/v0/app1/Table")].


Definition plain_post : Request :=
  request_of "POST"
    [(TARGET_HEADER, "https://api.airtable.com/v0/meta/bases/app1/tables")].

End RelayProps.

(** ** Vocabulary of the further properties *)

Module MoreProps.
Import Exporter View Props Generator Worker RelayProps.

(** The normalized tables of the scenario, and the table at a position
    of a list. *)
Definition scenario_tables : list NormalizedTable :=
  ns_tables (processSchema EmptyString scenario None).

Definition table_at (tables : list NormalizedTable) (i : nat)
  : NormalizedTable :=
  default (processTable (table_of EmptyString EmptyString [])) (tables !! i).

Definition scenario_schema : NormalizedSchema :=
  processSchema EmptyString scenario None.

(** The units [sanitizeFilename] lets through: [a-z], [0-9], [_], [-]. *)
Definition filename_unit (u : N) : Prop :=
  (97 <= u <= 122 \/ 48 <= u <= 57 \/ u = 95 \/ u = 45)%N.

(** A request the relay forwards: a POST from an allowed origin whose
    target starts with the upstream origin. *)
Definition accepted (allowed : list string) (request : Request)
    (url : string) : Prop :=
  req_method request = "POST"
  /\ isOriginAllowed allowed
       (or_default (get request "Origin") EmptyString) = true
  /\ get request TARGET_HEADER = Some url
  /\ startsWith url UPSTREAM_ORIGIN = true.

(** A status [new Response] takes together with a body. *)
Definition relayable (code : nat) : Prop :=
  200 <= code <= 599 /\ code ∉ [204; 205; 304].

(** A POST with a target, an origin, a method and a token. *)
Definition patch_request : Request :=
  {| req_method := "POST";
     req_headers :=
       list_to_map
         [(TARGET_HEADER, "https://api.airtable.com/v0/app1/Tasks");
          (METHOD_HEADER, "patch");
          ("Origin", "https://school.example");
          ("Authorization", "Bearer pat1");
          ("Cookie", "session=1")];
     req_text := "{}" |}.

(** The preflight a browser sends ahead of a request: the same headers,
    the method OPTIONS, no body. *)
Definition as_preflight (request : Request) : Request :=
  {| req_method := "OPTIONS"; req_headers := req_headers request;
     req_text := EmptyString |}.

(** The origin the worker works with: the Origin header, or the empty
    string. *)
Definition origin_of (request : Request) : string :=
  or_default (get request "Origin") EmptyString.

(** The headers [fetchHeaders] may hold, given the request's
    Authorization header. *)
Definition forwardable (authorization : option string)
    (h : string * string) : Prop :=
  h = ("Content-Type", "application/json")
  \/ (exists token,
        authorization = Some token /\ token <> EmptyString
        /\ h = ("Authorization", token)).

(** An allowlist with one origin. *)
Definition school_only : list string := ["https://school.example"].

(** A text without a line feed. *)
Fixpoint one_line (text : string) : bool :=
  match text with
  | EmptyString => true
  | String c tl => negb (Ascii.eqb c (ascii_of_nat 10)) && one_line tl
  end.

(** What the second pass leaves of a table: everything but the
    [linkedTableName] of its link fields and the two texts of its manual
    fields. *)
Definition framed (before after : NormalizedTable) : Prop :=
  nt_originalId after = nt_originalId before
  /\ nt_name after = nt_name before
  /\ nt_description after = nt_description before
  /\ nt_primaryFieldId after = nt_primaryFieldId before
  /\ creatableFields after = creatableFields before
  /\ autoSystemFields after = autoSystemFields before
  /\ inverseLinkFields after = inverseLinkFields before
  /\ Forall2
       (fun f0 f => set_linkedTableName None f = set_linkedTableName None f0)
       (linkFields before) (linkFields after)
  /\ Forall2 (fun f0 f => set_texts None None f = set_texts None None f0)
       (manualFields before) (manualFields after).

(** [{ isReversed: true, linkedTableId }] *)
Definition reversed_link_to (table : string) : option FieldOptions :=
  Some {| isReversed := Some true; linkedTableId := Some table;
          prefersSingleRecordLink := None; formula := None;
          fieldIdInLinkedTable := None; recordLinkFieldId := None;
          result := None; choices := None; options_rest := [] |}.

(** Table A rolls up, through the inverse side of B's link, B's
    Amount. *)
Definition inverse_rollup : RawSchema :=
  {| rs_tables :=
       [ table_of "tblA" "A"
           [ field_of "fldA1" "Name" "singleLineText" no_options;
             field_of "fldA2" "Bs" "multipleRecordLinks"
               (reversed_link_to "tblB");
             field_of "fldA3" "Total" "rollup"
               (looks_up (Some "fldB2") (Some "fldA2")) ];
         table_of "tblB" "B"
           [ field_of "fldB1" "Name" "singleLineText" no_options;
             field_of "fldB2" "Amount" "number" no_options;
             field_of "fldB3" "Owner" "multipleRecordLinks"
               (link_to "tblA") ] ] |}.

(** The manual field at a position of a table. *)
Definition manual_at (t : NormalizedTable) (j : nat) : NormalizedField :=
  default (cleanField (field_of EmptyString EmptyString EmptyString None))
    (manualFields t !! j).

(** A page template with both placeholders. *)
Definition sample_template : string :=
  "<script>const S = __SCHEMA_DATA_PLACEHOLDER__; const P = '__PROXY_URL_PLACEHOLDER__';</script>".

End MoreProps.

(** ** Loops that rewrite an array in place *)

Section InPlace.
Context {A : Type}.
Implicit Types (h : A -> A) (l : list A).

(** Rewriting every index in turn with one function is [map]. *)
Lemma fold_alter_shift h m : forall k x l,
  fold_left (fun l j => alter h j l) (seq (S k) m) (x :: l)
  = x :: fold_left (fun l j => alter h j l) (seq k m) l.
Proof.
  induction m as [|m IH]; intros k x l; simpl; [reflexivity|].
  apply IH.
Qed.

Lemma fold_alter_all h l :
  fold_left (fun l j => alter h j l) (seq 0 (length l)) l = h <$> l.
Proof.
  induction l as [|x l IH]; simpl; [reflexivity|].
  rewrite fold_alter_shift. f_equal. exact IH.
Qed.

(** A step that reads the whole array behaves like a fixed function as
    long as the array stays within an invariant the function keeps. *)
Lemma fold_step_alter (P : list A -> Prop) (step : list A -> nat -> list A)
    h (js : list nat) : forall l,
  (forall l j, P l -> P (alter h j l)) ->
  (forall l j, P l -> step l j = alter h j l) ->
  P l ->
  fold_left step js l = fold_left (fun l j => alter h j l) js l.
Proof.
  induction js as [|j js IH]; intros l Hkeep Hstep HP; simpl;
    [reflexivity|].
  rewrite (Hstep l j HP). apply IH; auto.
Qed.

Lemma fold_step_all (P : list A -> Prop) (step : list A -> nat -> list A)
    h l :
  (forall l j, P l -> P (alter h j l)) ->
  (forall l j, P l -> step l j = alter h j l) ->
  P l ->
  fold_left step (seq 0 (length l)) l = h <$> l.
Proof.
  intros Hkeep Hstep HP.
  rewrite (fold_step_alter P step h _ l Hkeep Hstep HP).
  apply fold_alter_all.
Qed.

(** Folds over related lists with related step functions agree. *)
Lemma fold_left_rel {B C} (R : B -> C -> Prop) (f : A -> B -> A)
    (g : A -> C -> A) (xs : list B) (ys : list C) :
  Forall2 R xs ys ->
  (forall a x y, R x y -> f a x = g a y) ->
  forall a, fold_left f xs a = fold_left g ys a.
Proof.
  intros HR Hfg. induction HR as [|x y xs ys Hxy _ IH]; intros a; simpl;
    [reflexivity|].
  rewrite (Hfg a x y Hxy). apply IH.
Qed.

End InPlace.

(** [find] on related lists, with predicates that agree on related
    elements, finds related elements. *)
Lemma find_rel {B C} (R : B -> C -> Prop) (p : B -> bool) (q : C -> bool)
    (xs : list B) (ys : list C) :
  Forall2 R xs ys ->
  (forall x y, R x y -> p x = q y) ->
  option_Forall2 R (find p xs) (find q ys).
Proof.
  intros HR Hpq. induction HR as [|x y xs ys Hxy _ IH]; simpl.
  - constructor.
  - rewrite (Hpq x y Hxy). destruct (q y); [by constructor | exact IH].
Qed.

(** ** The second pass, loop by loop *)

Section SecondPass.
Import Exporter View.

Lemma alike_refl f : alike f f.
Proof. by repeat split. Qed.

Lemma alike_list_refl fs : Forall2 alike fs fs.
Proof. induction fs; constructor; auto using alike_refl. Qed.

Lemma alike_table_refl t : alike_table t t.
Proof. repeat split; apply alike_list_refl. Qed.

Lemma alike_tables_refl ts : Forall2 alike_table ts ts.
Proof. induction ts; constructor; auto using alike_table_refl. Qed.

Lemma replaceBoth_alike id templ f : alike (replaceBoth id templ f) f.
Proof. by repeat split. Qed.

Lemma resolveLink_alike names f : alike (resolveLink names f) f.
Proof. by repeat split. Qed.

Lemma alike_trans f g h : alike f g -> alike g h -> alike f h.
Proof.
  intros (?&?&?) (?&?&?). repeat split; congruence.
Qed.

(** A fold of steps that keep a record alike keeps it alike. *)
Lemma fold_alike {B} (step : NormalizedField -> B -> NormalizedField)
    (xs : list B) :
  (forall f x, alike (step f x) f) ->
  forall f, alike (fold_left step xs f) f.
Proof.
  intros Hstep. induction xs as [|x xs IH]; intros f; simpl.
  - apply alike_refl.
  - eapply alike_trans; [apply IH | apply Hstep].
Qed.

Lemma resolveRecordLink_alike tables f :
  alike (resolveRecordLink tables f) f.
Proof.
  unfold resolveRecordLink, if_truthy.
  destruct (nf_originalOptions f ≫= recordLinkFieldId) as [id|];
    [|apply alike_refl].
  destruct (truthy id); [|apply alike_refl].
  apply fold_alike. intros g t. apply fold_alike. intros g' x.
  destruct (String.eqb _ _); [apply replaceBoth_alike | apply alike_refl].
Qed.

Lemma resolveLinkedField_alike tables f :
  alike (resolveLinkedField tables f) f.
Proof.
  unfold resolveLinkedField, if_truthy.
  destruct (nf_originalOptions f ≫= fieldIdInLinkedTable) as [id|];
    [|apply alike_refl].
  destruct (truthy id); [|apply alike_refl].
  apply fold_alike. intros g t. apply fold_alike. intros g' x.
  repeat case_match;
    first [apply replaceBoth_alike | apply alike_refl].
Qed.

Lemma resolveManual_alike tables f : alike (resolveManual tables f) f.
Proof.
  unfold resolveManual. eapply alike_trans;
    [apply resolveLinkedField_alike | apply resolveRecordLink_alike].
Qed.

Lemma linkTarget_alike link f g :
  alike f g -> linkTarget link f = linkTarget link g.
Proof.
  intros (Hid & _ & Hto). unfold linkTarget. by rewrite Hid, Hto.
Qed.

Lemma resolveRecordLink_view ts us mf :
  Forall2 alike_table ts us ->
  resolveRecordLink ts mf = resolveRecordLink us mf.
Proof.
  intros Hview. unfold resolveRecordLink, if_truthy.
  destruct (nf_originalOptions mf ≫= recordLinkFieldId) as [id|];
    [|reflexivity].
  destruct (truthy id); [|reflexivity].
  apply (fold_left_rel alike_table); [exact Hview|].
  intros a t u (_ & _ & Hc & Hl & _).
  apply (fold_left_rel alike); [by apply Forall2_app|].
  intros b f g (Hid & Hname & _). by rewrite Hid, Hname.
Qed.

Lemma resolveLinkedField_view ts us mf :
  Forall2 alike_table ts us ->
  resolveLinkedField ts mf = resolveLinkedField us mf.
Proof.
  intros Hview. unfold resolveLinkedField, if_truthy.
  destruct (nf_originalOptions mf ≫= fieldIdInLinkedTable) as [fid|];
    [|reflexivity].
  destruct (truthy fid); [|reflexivity].
  apply (fold_left_rel alike_table); [exact Hview|].
  intros a t u (_ & _ & _ & Hl & _ & Hi).
  apply (fold_left_rel alike); [by apply Forall2_app|].
  intros b f g Hfg. rewrite (linkTarget_alike _ f g Hfg).
  destruct (linkTarget _ g) as [target|]; [|reflexivity].
  destruct (find_rel alike_table
              (fun tt => String.eqb (nt_originalId tt) target)
              (fun tt => String.eqb (nt_originalId tt) target)
              ts us Hview) as [lt lu Hlt|].
  { intros x y (Hid & _). by rewrite Hid. }
  2: reflexivity.
  destruct Hlt as (_ & Hname & Hc & Hlk & Hm & _).
  destruct (find_rel alike
              (fun ff => String.eqb (nf_originalId ff) fid)
              (fun ff => String.eqb (nf_originalId ff) fid)
              (creatableFields lt ++ linkFields lt ++ manualFields lt)
              (creatableFields lu ++ linkFields lu ++ manualFields lu))
    as [lf lg (_ & Hfn & _)|].
  { by repeat apply Forall2_app. }
  { intros x y (Hid & _). by rewrite Hid. }
  - by rewrite Hfn, Hname.
  - reflexivity.
Qed.

Lemma resolveManual_view ts us mf :
  Forall2 alike_table ts us ->
  resolveManual ts mf = resolveManual us mf.
Proof.
  intros Hview. unfold resolveManual.
  rewrite (resolveRecordLink_view ts us mf Hview).
  apply resolveLinkedField_view, Hview.
Qed.

Lemma with_manualFields_same t : with_manualFields (manualFields t) t = t.
Proof. by destruct t. Qed.

Lemma alike_manual_step ts us i j :
  Forall2 alike_table ts us ->
  Forall2 alike_table
    (alter (fun t => with_manualFields
                       (alter (resolveManual us) j (manualFields t)) t)
       i ts) us.
Proof.
  intros Hview. apply Forall2_alter_l; [exact Hview|].
  intros x y _ _ (Hid & Hname & Hc & Hl & Hm & Hi).
  repeat split; try assumption. simpl.
  apply Forall2_alter_l; [exact Hm|].
  intros f g _ _ Hfg.
  eapply alike_trans; [apply resolveManual_alike | exact Hfg].
Qed.

(** The loop over the manual fields of table [i], started from tables
    that look like [us]. *)
Lemma manual_loop us i js : forall ts,
  Forall2 alike_table ts us ->
  fold_left (fun tables j => resolveManualAt i j tables) js ts
  = alter (fun t =>
             with_manualFields
               (fold_left (fun l j => alter (resolveManual us) j l) js
                  (manualFields t)) t) i ts.
Proof.
  induction js as [|j js IH]; intros ts Hview; simpl.
  - symmetry. apply list_alter_id, with_manualFields_same.
  - assert (resolveManualAt i j ts
            = alter (fun t => with_manualFields
                       (alter (resolveManual us) j (manualFields t)) t)
                i ts) as ->.
    { unfold resolveManualAt. apply list_alter_ext; [|reflexivity].
      intros t _. f_equal. apply list_alter_ext; [|reflexivity].
      intros mf _. by apply resolveManual_view. }
    rewrite IH by (by apply alike_manual_step).
    rewrite list_alter_alter_eq. apply list_alter_ext; [|reflexivity].
    intros t _. by destruct t.
Qed.

Lemma resolveTable_alike us t u :
  alike_table t u -> alike_table (resolveTable us t) u.
Proof.
  intros (Hid & Hname & Hc & Hl & Hm & Hi).
  repeat split; try assumption; simpl.
  - apply Forall2_fmap_l. eapply Forall2_impl; [exact Hl|].
    intros f g Hfg.
    eapply alike_trans; [apply (resolveLink_alike (tableIdToName us))|done].
  - apply Forall2_fmap_l. eapply Forall2_impl; [exact Hm|].
    intros f g Hfg. eapply alike_trans; [apply resolveManual_alike|done].
Qed.

(** One iteration of the outer loop rewrites table [i] alone, and as
    [resolveTable] says. *)
Lemma resolveTableAt_alter us ts i :
  Forall2 alike_table ts us ->
  resolveTableAt (tableIdToName us) ts i = alter (resolveTable us) i ts.
Proof.
  intros Hview. unfold resolveTableAt, resolveLinksAt.
  rewrite (manual_loop us).
  2:{ apply Forall2_alter_l; [exact Hview|].
      intros x y _ _ (Hid & Hname & Hc & Hl & Hm & Hi).
      repeat split; try assumption. simpl.
      apply Forall2_fmap_l. eapply Forall2_impl; [exact Hl|].
      intros f g Hfg.
      eapply alike_trans;
        [apply (resolveLink_alike (tableIdToName us))|done]. }
  rewrite list_lookup_alter_eq, list_alter_alter_eq.
  apply list_alter_ext; [|reflexivity].
  intros t Ht. rewrite Ht. simpl.
  rewrite fold_alter_all. reflexivity.
Qed.

(** The in-place pass computes the same tables as one [map] whose
    reads all go to the tables of the first pass. *)
Lemma resolveReferences_map tables :
  resolveReferences tables = resolveTable tables <$> tables.
Proof.
  unfold resolveReferences.
  apply (fold_step_all (fun ts => Forall2 alike_table ts tables)).
  - intros ts j Hview. apply Forall2_alter_l; [exact Hview|].
    intros x y _ _. apply resolveTable_alike.
  - intros ts j Hview. by apply resolveTableAt_alter.
  - apply alike_tables_refl.
Qed.

End SecondPass.

(** ** The first pass partitions the fields *)

Section FirstPass.
Import Exporter View Props.

Lemma pushField_pushed c acc field :
  pushed c (pushField acc field)
  = pushed c acc
      ++ (if decide (classifyField field = c)
          then [normalizeField field] else []).
Proof.
  unfold pushField.
  destruct (classifyField field), c; simpl;
    by rewrite ?app_nil_r.
Qed.

Lemma fold_pushField c fields : forall acc,
  pushed c (fold_left pushField fields acc)
  = pushed c acc ++ (normalizeField <$> of_category c fields).
Proof.
  unfold of_category.
  induction fields as [|field fields IH]; intros acc; simpl.
  - by rewrite app_nil_r.
  - rewrite IH, pushField_pushed, filter_cons.
    destruct (decide (classifyField field = c)); simpl.
    + by rewrite <- app_assoc.
    + by rewrite app_nil_r.
Qed.

Lemma processTable_partition c table :
  partition c (processTable table)
  = normalizeField <$> of_category c (rt_fields table).
Proof.
  pose proof (fold_pushField c (rt_fields table) no_fields) as H.
  destruct c; exact H.
Qed.

Lemma resolveTable_partition tables c table :
  partition c (resolveTable tables (processTable table))
  = exported tables c <$> of_category c (rt_fields table).
Proof.
  destruct c; simpl;
    rewrite <- ?list_fmap_compose;
    first [ exact (processTable_partition creatable table)
          | exact (processTable_partition autoSystem table)
          | exact (processTable_partition inverseLink table)
          | idtac ].
  - change (p_link _) with (partition link (processTable table)).
    by rewrite processTable_partition, <- list_fmap_compose.
  - change (p_manual _) with (partition manual (processTable table)).
    by rewrite processTable_partition, <- list_fmap_compose.
Qed.

(** The tables [processSchema] returns. *)
Lemma processSchema_tables now rawSchema baseName :
  ns_tables (processSchema now rawSchema baseName)
  = (fun table => resolveTable (firstPass rawSchema) (processTable table))
      <$> rs_tables rawSchema.
Proof.
  unfold processSchema. simpl. rewrite resolveReferences_map.
  unfold firstPass. by rewrite <- list_fmap_compose.
Qed.

End FirstPass.

(** ** The classifier *)

Section Classifier.
Import Exporter View Props.

Lemma has_elem_of set x : has set x = true <-> x ∈ set.
Proof.
  unfold has. rewrite existsb_exists, list_elem_of_In. split.
  - intros (y & Hy & Heq). apply String.eqb_eq in Heq. by subst.
  - intros Hx. exists x. split; [exact Hx | apply String.eqb_refl].
Qed.

Lemma has_not_elem_of set x : has set x = false <-> x ∉ set.
Proof.
  rewrite <- has_elem_of. destruct (has set x); split; congruence.
Qed.

(** C1. [classifyField] follows the decision table: a field is [manual]
    exactly when its type is formula, rollup, multipleLookupValues or
    count; [autoSystem] exactly when its type is autoNumber, createdTime,
    lastModifiedTime, createdBy or lastModifiedBy; [inverseLink] exactly
    when its type is multipleRecordLinks and [options.isReversed] is
    true; [link] exactly when its type is multipleRecordLinks and it is
    not reversed; [creatable] in every other case.  Two fields with the
    same type and options get the same category. *)
Theorem classifyField_table (field : RawField) :
  let reversed := opt field isReversed = Some true in
  (classifyField field = manual
   <-> rf_type field
       ∈ ["formula"; "rollup"; "multipleLookupValues"; "count"])
  /\ (classifyField field = autoSystem
      <-> rf_type field
          ∈ ["autoNumber"; "createdTime"; "lastModifiedTime"; "createdBy";
             "lastModifiedBy"])
  /\ (classifyField field = inverseLink
      <-> rf_type field = "multipleRecordLinks" /\ reversed)
  /\ (classifyField field = link
      <-> rf_type field = "multipleRecordLinks" /\ ~ reversed)
  /\ (classifyField field = creatable
      <-> rf_type field
          ∉ ["formula"; "rollup"; "multipleLookupValues"; "count";
             "autoNumber"; "createdTime"; "lastModifiedTime"; "createdBy";
             "lastModifiedBy"; "multipleRecordLinks"])
  /\ (forall other : RawField,
        rf_type other = rf_type field ->
        rf_options other = rf_options field ->
        classifyField other = classifyField field).
Proof.
  intros reversed.
  assert (Hrev : truthy (opt field isReversed) = true <-> reversed).
  { unfold reversed. destruct (opt field isReversed) as [[|]|];
      simpl; naive_solver. }
  split_and!.
  6: { intros other Ht Ho. unfold classifyField, opt. by rewrite Ht, Ho. }
  all: unfold classifyField.
  all: destruct (has NON_CREATABLE_TYPES (rf_type field)) eqn:Hm;
    [| destruct (has AUTO_SYSTEM_TYPES (rf_type field)) eqn:Ha;
       [| destruct (String.eqb_spec (rf_type field) LINK_TYPE) as [Hl|Hl];
          [destruct (truthy (opt field isReversed)) eqn:Hr|] ] ].
  all: rewrite ?has_elem_of, ?has_not_elem_of in *.
  all: unfold NON_CREATABLE_TYPES, AUTO_SYSTEM_TYPES, LINK_TYPE in *.
  all: set_unfold.
  all: try (split; [discriminate|]).
  all: try (split; [done|]).
  all: try (intuition congruence).
Qed.

End Classifier.

(** ** The partition of a table's fields *)

Section Partition.
Import Exporter View Props.

(** A property [set_texts] and [set_linkedTableName] leave alone is
    left alone by the whole second pass. *)
Lemma fold_keeps {B C} (proj : NormalizedField -> C)
    (step : NormalizedField -> B -> NormalizedField) (xs : list B) :
  (forall f x, proj (step f x) = proj f) ->
  forall f, proj (fold_left step xs f) = proj f.
Proof.
  intros Hstep. induction xs as [|x xs IH]; intros f; simpl;
    [reflexivity|].
  by rewrite IH, Hstep.
Qed.

Lemma resolveManual_keeps {C} (proj : NormalizedField -> C) tables f :
  (forall cell desc g, proj (set_texts cell desc g) = proj g) ->
  proj (resolveManual tables f) = proj f.
Proof.
  intros Hproj.
  assert (Hrep : forall id templ g, proj (replaceBoth id templ g) = proj g)
    by (intros; apply Hproj).
  unfold resolveManual.
  transitivity (proj (resolveRecordLink tables f)).
  - unfold resolveLinkedField, if_truthy.
    destruct (_ ≫= fieldIdInLinkedTable) as [id|]; [|reflexivity].
    destruct (truthy id); [|reflexivity].
    apply fold_keeps. intros g t. apply fold_keeps. intros g' x.
    repeat case_match; auto.
  - unfold resolveRecordLink, if_truthy.
    destruct (_ ≫= recordLinkFieldId) as [id|]; [|reflexivity].
    destruct (truthy id); [|reflexivity].
    apply fold_keeps. intros g t. apply fold_keeps. intros g' x.
    repeat case_match; auto.
Qed.

Lemma common_exported tables c field :
  common (exported tables c field) = cleanField field.
Proof.
  destruct c; simpl.
  - unfold normalizeField. by destruct (classifyField field).
  - unfold normalizeField. by destruct (classifyField field).
  - rewrite (resolveManual_keeps common) by done.
    unfold normalizeField. by destruct (classifyField field).
  - unfold normalizeField. by destruct (classifyField field).
  - unfold normalizeField. by destruct (classifyField field).
Qed.

Lemma isReversed_cleanOptions o :
  isReversed (cleanOptions o) = isReversed o.
Proof. unfold cleanOptions. by destruct (choices o). Qed.

Lemma category_of_cleanField field :
  category_of (cleanField field) = classifyField field.
Proof.
  unfold category_of, classifyField, opt. simpl.
  destruct (rf_options field) as [o|]; simpl; [|reflexivity].
  by rewrite isReversed_cleanOptions.
Qed.

Lemma category_of_common f : category_of (common f) = category_of f.
Proof. reflexivity. Qed.

Lemma category_of_exported tables c field :
  category_of (exported tables c field) = classifyField field.
Proof.
  by rewrite <- category_of_common, common_exported,
    category_of_cleanField.
Qed.

Lemma Permutation_insert {A} (x : A) (pre post l : list A) :
  pre ++ post ≡ₚ l -> pre ++ x :: post ≡ₚ x :: l.
Proof. intros <-. symmetry. apply Permutation_middle. Qed.

(** The five categories split any list of fields. *)
Lemma of_category_split fields :
  categories ≫= (fun c => of_category c fields) ≡ₚ fields.
Proof.
  unfold categories, of_category. simpl. rewrite app_nil_r.
  induction fields as [|field fields IH]; [reflexivity|].
  rewrite !filter_cons.
  destruct (classifyField field); simpl;
    repeat (case_decide; try discriminate); simpl.
  - by constructor.
  - by apply Permutation_insert.
  - rewrite !(app_assoc _ _ (_ :: _)). apply Permutation_insert.
    by rewrite <- !app_assoc.
  - rewrite !(app_assoc _ _ (_ :: _)). apply Permutation_insert.
    by rewrite <- !app_assoc.
  - rewrite !(app_assoc _ _ (_ :: _)). apply Permutation_insert.
    by rewrite <- !app_assoc.
Qed.

Lemma Forall2_fmap_diag {A B} (R : A -> B -> Prop) (f : A -> B)
    (l : list A) :
  (forall x, x ∈ l -> R x (f x)) -> Forall2 R l (f <$> l).
Proof.
  intros H. apply Forall2_fmap_r, Forall_Forall2_diag, Forall_forall.
  exact H.
Qed.

Lemma Forall2_fmap_eq {A B} (R : A -> B -> Prop) (f : A -> B)
    (l : list A) (k : list B) :
  k = f <$> l -> (forall x, x ∈ l -> R x (f x)) -> Forall2 R l k.
Proof. intros ->. apply Forall2_fmap_diag. Qed.

Lemma elem_of_partition tables c table f :
  f ∈ partition c (resolveTable tables (processTable table)) ->
  category_of f = c.
Proof.
  rewrite resolveTable_partition. intros Hf.
  apply list_elem_of_fmap in Hf as (field & -> & Hfield).
  apply list_elem_of_filter in Hfield as [Hc _].
  by rewrite category_of_exported.
Qed.

Lemma fmap_common_exported tables c (fields : list RawField) :
  common <$> (exported tables c <$> fields) = cleanField <$> fields.
Proof.
  rewrite <- list_fmap_compose. apply list_fmap_ext.
  intros i field _. apply common_exported.
Qed.

Lemma all_fields_common tables table :
  common <$> all_fields (resolveTable tables (processTable table))
  = cleanField <$> (categories ≫= (fun c => of_category c (rt_fields table))).
Proof.
  unfold all_fields, categories.
  change (common <$>
            (partition creatable (resolveTable tables (processTable table))
             ++ partition link (resolveTable tables (processTable table))
             ++ partition manual (resolveTable tables (processTable table))
             ++ partition autoSystem
                  (resolveTable tables (processTable table))
             ++ partition inverseLink
                  (resolveTable tables (processTable table))
             ++ [])
          = cleanField <$>
              (of_category creatable (rt_fields table)
               ++ of_category link (rt_fields table)
               ++ of_category manual (rt_fields table)
               ++ of_category autoSystem (rt_fields table)
               ++ of_category inverseLink (rt_fields table) ++ [])).
  by rewrite !resolveTable_partition, !fmap_app, !fmap_common_exported.
Qed.

(** C2. For every raw table the five arrays of the normalized table hold,
    category by category and in the table's order, the records of the raw
    fields [classifyField] puts in that category; [classifyField] always
    answers with one of the five categories; no record is in two arrays;
    and the arrays together hold exactly one record per raw field. *)
Theorem fields_partitioned (now : string) (rawSchema : RawSchema)
    (baseName : option string) :
  Forall2
    (fun (table : RawTable) (t : NormalizedTable) =>
       (forall field, field ∈ rt_fields table ->
          classifyField field ∈ categories)
       /\ (forall c,
             Forall2 (fun field f =>
                        classifyField field = c
                        /\ common f = cleanField field)
               (of_category c (rt_fields table)) (partition c t))
       /\ (forall c d f, f ∈ partition c t -> f ∈ partition d t -> c = d)
       /\ common <$> all_fields t ≡ₚ cleanField <$> rt_fields table
       /\ length (all_fields t) = length (rt_fields table))
    (rs_tables rawSchema)
    (ns_tables (processSchema now rawSchema baseName)).
Proof.
  rewrite processSchema_tables. apply Forall2_fmap_diag.
  intros table _.
  assert (Hperm :
    common <$> all_fields (resolveTable (firstPass rawSchema)
                             (processTable table))
    ≡ₚ cleanField <$> rt_fields table).
  { rewrite all_fields_common. by rewrite of_category_split. }
  split_and!.
  - intros field _. unfold categories.
    destruct (classifyField field); set_solver.
  - intros c. rewrite resolveTable_partition. apply Forall2_fmap_diag.
    intros field Hfield.
    apply list_elem_of_filter in Hfield as [Hc _].
    split; [exact Hc | apply common_exported].
  - intros c d f Hc Hd.
    apply elem_of_partition in Hc. apply elem_of_partition in Hd.
    congruence.
  - exact Hperm.
  - apply Permutation_length in Hperm.
    by rewrite !length_fmap in Hperm.
Qed.

End Partition.

(** ** The relay *)

Section RelayProofs.
Import Worker RelayProps.
Variable allowed : list string.
Variable upstream : string -> FetchOpts -> Upstream.

Lemma header_jsonResponse error status origin :
  header (jsonResponse error status origin) CORS_HEADER
  = Some (default "*" origin).
Proof. reflexivity. Qed.

Lemma header_relayed origin reply :
  is_Some (header (relayed origin reply) CORS_HEADER).
Proof.
  unfold relayed. destruct reply as [code text|message]; [|by eexists].
  unfold new_Response.
  destruct (negb _); [by eexists|].
  destruct (null_body_status code); [|by eexists].
  destruct (truthy text); by eexists.
Qed.

(** The handler, by the branch a request takes. *)
Lemma fetch_options request :
  req_method request = "OPTIONS" ->
  fetch allowed request = Ret (handlePreflight allowed request).
Proof. intros H. unfold fetch. by rewrite H. Qed.

Lemma fetch_not_post request :
  req_method request <> "OPTIONS" ->
  req_method request <> "POST" ->
  fetch allowed request
  = Ret (jsonResponse "Method not allowed. Use POST." 405 None).
Proof.
  intros Ho Hp. unfold fetch.
  apply String.eqb_neq in Ho as ->. by apply String.eqb_neq in Hp as ->.
Qed.

Lemma fetch_target_outside request :
  target_outside request ->
  exists response,
    fetch allowed request = Ret response
    /\ (req_method request <> "OPTIONS" ->
        status response ∈ [405; 403; 400])
    /\ (req_method request = "OPTIONS" ->
        status response ∈ [204; 403]).
Proof.
  intros Hout. unfold fetch, target_outside, TARGET_HEADER in *.
  destruct (String.eqb_spec (req_method request) "OPTIONS") as [Ho|Ho].
  { eexists. split; [reflexivity|]. split; [done|]. intros _.
    unfold handlePreflight. destruct (negb _); simpl; repeat constructor. }
  destruct (String.eqb (req_method request) "POST"); simpl.
  2:{ eexists. split; [reflexivity|]. split; [|done]. simpl. repeat constructor. }
  destruct (isOriginAllowed allowed _); simpl.
  2:{ eexists. split; [reflexivity|]. split; [|done]. simpl. repeat constructor. }
  destruct (get request "X-Airtable-Target-Url") as [url|].
  - unfold UPSTREAM_ORIGIN in Hout. rewrite Hout, orb_true_r.
    eexists. split; [reflexivity|]. split; [|done]. simpl. repeat constructor.
  - eexists. split; [reflexivity|]. split; [|done]. simpl. repeat constructor.
Qed.

Lemma fetch_forwarded request url :
  req_method request = "POST" ->
  isOriginAllowed allowed
    (or_default (get request "Origin") EmptyString) = true ->
  get request TARGET_HEADER = Some url ->
  startsWith url UPSTREAM_ORIGIN = true ->
  fetch allowed request
  = forward request (or_default (get request "Origin") EmptyString)
      (or_default (get request METHOD_HEADER) "POST") url.
Proof.
  unfold TARGET_HEADER, METHOD_HEADER, UPSTREAM_ORIGIN.
  intros Hm Ho Ht Hs. unfold fetch. rewrite Hm, Ho, Ht, Hs. simpl.
  destruct url; [discriminate Hs | reflexivity].
Qed.


(** C8, as the worker has it.  A request that is not an OPTIONS preflight
    is answered with an error status and not forwarded when its method is
    not POST or its X-Airtable-Target-Url header is missing.  A missing
    X-Airtable-Method header is no reason to reject: the request is then
    forwarded with the method POST. *)
Theorem relay_checks (request : Request) :
  req_method request <> "OPTIONS" ->
  ((req_method request <> "POST"
    \/ get request TARGET_HEADER = None) ->
   is_error (serve allowed upstream request).1
   /\ (serve allowed upstream request).2 = [])
  /\ (forall url,
        req_method request = "POST" ->
        isOriginAllowed allowed
          (or_default (get request "Origin") EmptyString) = true ->
        get request TARGET_HEADER = Some url ->
        startsWith url UPSTREAM_ORIGIN = true ->
        get request METHOD_HEADER = None ->
        exists opts,
          (serve allowed upstream request).2 = [(url, opts)]
          /\ fo_method opts = "POST").
Proof.
  intros Ho. split.
  - intros Hbad.
    assert (Hcases : req_method request <> "POST"
                     \/ target_outside request).
    { destruct Hbad as [Hp|Ht]; [by left | right].
      unfold target_outside. by rewrite Ht. }
    destruct Hcases as [Hp|Hout].
    + unfold serve. rewrite (fetch_not_post request Ho Hp). simpl.
      split; [unfold is_error; simpl; lia | reflexivity].
    + destruct (fetch_target_outside request Hout)
        as (response & Hf & Herr & _).
      unfold serve. rewrite Hf. simpl. split; [|reflexivity].
      specialize (Herr Ho). unfold is_error. set_unfold in Herr. lia.
  - intros url Hm Hor Ht Hs Hmeth. unfold serve.
    rewrite (fetch_forwarded request url Hm Hor Ht Hs), Hmeth.
    simpl. by eexists.
Qed.

(** C10.  Every response to a request that is not an OPTIONS preflight
    carries an Access-Control-Allow-Origin header, whichever branch
    produced it; the answer to a preflight lacks the header exactly when
    the preflight is refused. *)
Theorem cors_header_present (request : Request) :
  (req_method request <> "OPTIONS" ->
   is_Some (header (serve allowed upstream request).1 CORS_HEADER))
  /\ (req_method request = "OPTIONS" ->
      (header (serve allowed upstream request).1 CORS_HEADER = None
       <-> isOriginAllowed allowed
             (or_default (get request "Origin") EmptyString) = false)).
Proof.
  split.
  - intros Ho. unfold serve, fetch.
    apply String.eqb_neq in Ho as ->.
    destruct (String.eqb (req_method request) "POST"); simpl;
      [|by eexists].
    destruct (isOriginAllowed allowed _); simpl; [|by eexists].
    destruct (get request "X-Airtable-Target-Url") as [url|];
      [|by eexists].
    destruct (negb (truthy url) || negb (startsWith url _));
      [by eexists|].
    simpl. apply header_relayed.
  - intros Ho. unfold serve. rewrite (fetch_options request Ho).
    simpl. unfold handlePreflight.
    destruct (isOriginAllowed allowed _); simpl; split; done.
Qed.

End RelayProofs.

(** *** The relay on concrete requests *)

Section RelayExamples.
Import Worker RelayProps.



Lemma relay_checks_witness :
  is_error (serve ALLOWED_ORIGINS upstream_ok (request_of "POST" [])).1
  /\ (serve ALLOWED_ORIGINS upstream_ok (request_of "POST" [])).2 = [].
Proof.
  apply (relay_checks ALLOWED_ORIGINS upstream_ok (request_of "POST" [])).
  - discriminate.
  - right. reflexivity.
Defined.

(** C8, as stated, fails on a POST without X-Airtable-Method: it is
    forwarded, as a POST, and the upstream's 200 comes back. *)
Lemma missing_method_forwarded :
  ~ (forall upstream request,
       req_method request <> "OPTIONS" ->
       (req_method request <> "POST"
        \/ get request TARGET_HEADER = None
        \/ get request METHOD_HEADER = None) ->
       is_error (serve ALLOWED_ORIGINS upstream request).1
       /\ (serve ALLOWED_ORIGINS upstream request).2 = []).
Proof.
  intros Hclaim.
  destruct (Hclaim upstream_ok plain_post) as [_ Hcalls].
  - discriminate.
  - right. right. reflexivity.
  - vm_compute in Hcalls. discriminate Hcalls.
Qed.

End RelayExamples.

(** ** Link targets *)

Section LinkTargets.
Import Exporter View Props.

(** Filling a plain object in a loop: the last write to a key is the
    one its own property holds, and no write reaches [__proto__]. *)
Lemma lookup_filled {A} (ident name : A -> string) (l : list A)
    (key : string) :
  fold_left (fun obj x => obj_set (ident x) (name x) obj) l
    (∅ : gmap string string) !! key
  = if String.eqb key "__proto__" then None
    else name <$> last (filter (fun x => ident x = key) l).
Proof.
  induction l as [|x l IH] using rev_ind.
  { simpl. rewrite lookup_empty. by destruct (String.eqb _ _). }
  rewrite fold_left_app, filter_app. simpl.
  rewrite filter_cons, filter_nil. unfold obj_set at 1.
  destruct (String.eqb (ident x) "__proto__") eqn:Hproto.
  - rewrite IH. destruct (String.eqb key "__proto__") eqn:Hkey; [done|].
    apply String.eqb_eq in Hproto. apply String.eqb_neq in Hkey.
    destruct (decide (ident x = key)) as [Heq|_]; [congruence|].
    by rewrite app_nil_r.
  - rewrite lookup_insert.
    apply String.eqb_neq in Hproto.
    destruct (decide (ident x = key)) as [Heq|Hne].
    + assert (String.eqb key "__proto__" = false) as ->.
      { apply String.eqb_neq. congruence. }
      by rewrite last_snoc.
    + by rewrite IH, app_nil_r.
Qed.

Lemma tableIdToName_lookup tables key :
  tableIdToName tables !! key = nt_name <$> stored tables key.
Proof.
  unfold tableIdToName, stored, tables_with_id.
  rewrite (lookup_filled nt_originalId nt_name).
  by destruct (String.eqb _ _).
Qed.

(** What a read of [tableIdToName] gives. *)
Lemma tableIdToName_get tables key :
  obj_get (tableIdToName tables) key
  = match stored tables key with
    | Some target => Some (Str (nt_name target))
    | None => if inherited key then Some (Inherited key) else None
    end.
Proof.
  unfold obj_get. rewrite tableIdToName_lookup.
  by destruct (stored tables key).
Qed.

Lemma tableIdToName_view ts us :
  Forall2 alike_table ts us -> tableIdToName ts = tableIdToName us.
Proof.
  intros Hview. unfold tableIdToName.
  apply (fold_left_rel alike_table); [exact Hview|].
  intros m t u (Hid & Hname & _). by rewrite Hid, Hname.
Qed.

Lemma alike_list_sym fs gs : Forall2 alike fs gs -> Forall2 alike gs fs.
Proof.
  intros H. apply Forall2_flip. eapply Forall2_impl; [exact H|].
  intros f g (?&?&?). by repeat split.
Qed.

Lemma resolved_alike tables (l : list RawTable) :
  Forall2 alike_table (processTable <$> l)
    ((fun table => resolveTable tables (processTable table)) <$> l).
Proof.
  apply Forall2_fmap, Forall_Forall2_diag, Forall_forall.
  intros table _. simpl.
  pose proof (resolveTable_alike tables (processTable table)
                (processTable table) (alike_table_refl _))
    as (Hid & Hname & Hc & Hl & Hm & Hi).
  repeat split; try done; by apply alike_list_sym.
Qed.

Lemma exported_link tables out field :
  classifyField field = link ->
  Forall2 alike_table tables out ->
  nf_linkedTableId (exported tables link field) = opt field linkedTableId
  /\ nf_linkedTableName (exported tables link field)
     = target_name out (opt field linkedTableId)
  /\ nf_options (exported tables link field)
     = cleanOptions <$> rf_options field.
Proof.
  intros Hc Hview. simpl. unfold normalizeField. rewrite Hc. simpl.
  split_and!; try reflexivity.
  rewrite (tableIdToName_view tables out Hview), tableIdToName_get.
  unfold target_name, or_else.
  destruct (stored _ _) as [target|]; [reflexivity|].
  by destruct (inherited _).
Qed.

Lemma processSchema_alike now rawSchema baseName :
  Forall2 alike_table (firstPass rawSchema)
    (ns_tables (processSchema now rawSchema baseName)).
Proof. rewrite processSchema_tables. apply resolved_alike. Qed.

(** The link fields of the output, next to the raw fields they come
    from. *)
Lemma output_links now rawSchema baseName :
  let out := ns_tables (processSchema now rawSchema baseName) in
  Forall2
    (fun table t =>
       Forall2
         (fun field f =>
            classifyField field = link
            /\ field ∈ rt_fields table
            /\ nf_linkedTableId f = opt field linkedTableId
            /\ nf_linkedTableName f
               = target_name out (opt field linkedTableId)
            /\ nf_options f = cleanOptions <$> rf_options field)
         (of_category link (rt_fields table)) (linkFields t))
    (rs_tables rawSchema) out.
Proof.
  intros out.
  pose proof (processSchema_alike now rawSchema baseName) as Hview.
  fold out in Hview. unfold out at 2. rewrite processSchema_tables.
  apply Forall2_fmap_diag. intros table _.
  rewrite (resolveTable_partition _ link). apply Forall2_fmap_diag.
  intros field Hfield. apply list_elem_of_filter in Hfield as [Hc Hin].
  split; [exact Hc|]. split; [exact Hin|].
  by apply exported_link.
Qed.


(** The reads of [tableIdToName] that go through its prototype: a link
    to [constructor], an id no table has, gets the function
    [Object.prototype.constructor]; a link to the table with the id
    [__proto__], which is never stored, gets [Object.prototype]; a link
    to the table with the id [toString] gets that table's name. *)
Example prototype_members_read :
  (fun t => nf_linkedTableName <$> linkFields t)
    <$> ns_tables (processSchema EmptyString prototype_links None)
  = [ []; [];
      [ Some (Inherited "constructor"); Some (Inherited "__proto__");
        Some (Str "T") ] ].
Proof. vm_compute. reflexivity. Qed.


(** C7, as the exporter has it.  When every link field of the raw schema
    points to a table of the schema, every table has a name and no table
    has the id [__proto__], the normalized schema is self-contained on
    its link fields: each [linkedTableName] is the name of a table of the
    schema, and the raw table id the field keeps (top-level and in its
    copied options) is the [originalId] of a table of the schema. *)
Theorem closed_schema_self_contained (now : string) (rawSchema : RawSchema)
    (baseName : option string) :
  links_closed rawSchema ->
  tables_named rawSchema ->
  ids_stored rawSchema ->
  self_contained (ns_tables (processSchema now rawSchema baseName)).
Proof.
  intros Hclosed Hnamed Hstored t f Ht Hf.
  pose proof (output_links now rawSchema baseName) as Hlinks.
  cbv zeta in Hlinks.
  set (out := ns_tables (processSchema now rawSchema baseName)) in *.
  apply list_elem_of_lookup in Ht as [i Ht].
  destruct (Forall2_lookup_r _ _ _ _ _ Hlinks Ht) as (table & Htable & Hfs).
  apply list_elem_of_lookup in Hf as [j Hf].
  destruct (Forall2_lookup_r _ _ _ _ _ Hfs Hf)
    as (field & Hfield & Hc & Hin & Hid & Hname & Hopts).
  assert (exists target,
            target ∈ rs_tables rawSchema
            /\ opt field linkedTableId = Some (rt_id target))
    as (target & Htarget & Hraw).
  { unfold links_closed in Hclosed.
    rewrite Forall_forall in Hclosed.
    apply list_elem_of_lookup_2 in Htable.
    specialize (Hclosed table Htable). rewrite Forall_forall in Hclosed.
    apply Exists_exists. by apply Hclosed. }
  (* the target has a counterpart in the output *)
  assert (Hcounterpart : exists u, u ∈ out /\ nt_originalId u = rt_id target).
  { unfold out. rewrite processSchema_tables.
    eexists. split; [apply list_elem_of_fmap; eauto|]. reflexivity. }
  (* every output table has a name *)
  assert (Hnames : forall u, u ∈ out -> nt_name u <> EmptyString).
  { unfold out. rewrite processSchema_tables. intros u Hu.
    apply list_elem_of_fmap in Hu as (raw & -> & Hraw'). simpl.
    unfold tables_named in Hnamed. rewrite Forall_forall in Hnamed.
    by apply Hnamed. }
  assert (Hkey : String.eqb (rt_id target) "__proto__" = false).
  { apply String.eqb_neq. unfold ids_stored in Hstored.
    rewrite Forall_forall in Hstored. by apply Hstored. }
  split.
  - rewrite Hname, Hraw. unfold target_name, stored. simpl. rewrite Hkey.
    destruct (last (tables_with_id out (rt_id target))) as [u|] eqn:Hlast.
    + assert (Hu : u ∈ out).
      { apply last_Some_elem_of in Hlast.
        by apply list_elem_of_filter in Hlast as [_ ?]. }
      exists u. split; [exact Hu|].
      specialize (Hnames u Hu). by destruct (nt_name u).
    + apply last_None in Hlast.
      destruct Hcounterpart as (u & Hu & Hidu).
      unfold tables_with_id in Hlast. exfalso.
      by apply (filter_nil_not_elem_of _ _ u Hlast Hidu).
  - intros id Hcarried.
    assert (id = rt_id target) as ->.
    { destruct Hcarried as [H|H].
      - rewrite Hid, Hraw in H. congruence.
      - rewrite Hopts in H. unfold opt in Hraw.
        destruct (rf_options field) as [o|]; [|discriminate].
        simpl in H, Hraw. unfold cleanOptions in H.
        destruct (choices o); simpl in H; congruence. }
    exact Hcounterpart.
Qed.

Lemma closed_schema_self_contained_witness :
  self_contained (ns_tables (processSchema EmptyString scenario None)).
Proof.
  apply closed_schema_self_contained.
  - unfold links_closed, scenario. simpl.
    repeat first [apply List.Forall_cons | apply List.Forall_nil];
      intros Hc; vm_compute in Hc; try discriminate Hc.
    apply List.Exists_cons_hd. reflexivity.
  - unfold tables_named, scenario. simpl.
    repeat first [apply List.Forall_cons | apply List.Forall_nil];
      discriminate.
  - unfold ids_stored, scenario. simpl.
    repeat first [apply List.Forall_cons | apply List.Forall_nil];
      discriminate.
Defined.

(** C7, as stated, fails on a link to a table the export lacks: the link
    field carries the raw table id, which nothing in the schema
    resolves. *)
Lemma dangling_link_unresolved :
  ~ self_contained (ns_tables (processSchema EmptyString dangling_link None)).
Proof.
  intros Hclaim.
  remember (ns_tables _) as tables eqn:E. vm_compute in E. subst tables.
  edestruct Hclaim as [(target & Hin & Hname) _].
  { apply list_elem_of_here. }
  { apply list_elem_of_here. }
  apply list_elem_of_singleton in Hin as ->. discriminate Hname.
Qed.

(** The condition on [__proto__] is needed: a table with that id is
    never stored, and a link to it reads [Object.prototype]. *)
Example proto_table_not_stored :
  links_closed proto_table /\ tables_named proto_table
  /\ ~ self_contained
        (ns_tables (processSchema EmptyString proto_table None)).
Proof.
  split_and!.
  - unfold links_closed, proto_table. simpl.
    repeat first [apply List.Forall_cons | apply List.Forall_nil];
      intros Hc; vm_compute in Hc; try discriminate Hc.
    apply List.Exists_cons_hd. reflexivity.
  - unfold tables_named, proto_table. simpl.
    repeat first [apply List.Forall_cons | apply List.Forall_nil];
      discriminate.
  - intros Hclaim.
    remember (ns_tables _) as tables eqn:E. vm_compute in E. subst tables.
    edestruct Hclaim as [(target & _ & Hname) _].
    { apply list_elem_of_further, list_elem_of_here. }
    { apply list_elem_of_here. }
    discriminate Hname.
Qed.

End LinkTargets.

(** ** Choices and instructions *)

Section Cleaning.
Import Exporter View Props.

Lemma cleanChoice_stripped choice : stripped choice (cleanChoice choice).
Proof. by repeat split. Qed.

Lemma nf_options_exported tables c field :
  nf_options (exported tables c field) = cleanOptions <$> rf_options field.
Proof.
  change (nf_options (common (exported tables c field))
          = nf_options (cleanField field)).
  by rewrite common_exported.
Qed.

(** C9.  When the options of a raw field hold a [choices] list, the
    options of its normalized record hold a [choices] list of the same
    length and order whose entries carry the choice's name, its color
    when the raw choice has one (a non-empty one), and neither the
    choice's id nor any other key. *)
Theorem choices_stripped (now : string) (rawSchema : RawSchema)
    (baseName : option string) :
  Forall2
    (fun table t =>
       forall c,
         Forall2
           (fun field f =>
              forall o cs,
                rf_options field = Some o -> choices o = Some cs ->
                exists o' cs',
                  nf_options f = Some o' /\ choices o' = Some cs'
                  /\ Forall2 stripped cs cs')
           (of_category c (rt_fields table)) (partition c t))
    (rs_tables rawSchema)
    (ns_tables (processSchema now rawSchema baseName)).
Proof.
  rewrite processSchema_tables. apply Forall2_fmap_diag.
  intros table _ c. rewrite resolveTable_partition.
  apply Forall2_fmap_diag. intros field _ o cs Ho Hcs.
  rewrite nf_options_exported, Ho. simpl.
  exists (cleanOptions o), (cleanChoice <$> cs).
  split; [reflexivity|]. unfold cleanOptions. rewrite Hcs. simpl.
  split; [reflexivity|].
  apply Forall2_fmap_diag. intros choice _. apply cleanChoice_stripped.
Qed.

Lemma description_not_empty field :
  description (buildManualInstructions field) <> EmptyString.
Proof. discriminate. Qed.

Lemma cellInstructions_not_empty field :
  cellInstructions (buildManualInstructions field) <> EmptyString.
Proof. discriminate. Qed.

(** C6.  For a field of any of the four manual types, with or without
    options, [buildManualInstructions] returns a description and cell
    instructions that are not empty; and when none of the sub-fields it
    looks for is there, the config summary it puts in both is a text that
    sends the reader to the original base. *)
Theorem buildManualInstructions_total (field : RawField) :
  rf_type field ∈ ["formula"; "rollup"; "multipleLookupValues"; "count"] ->
  let i := buildManualInstructions field in
  description i <> EmptyString
  /\ cellInstructions i <> EmptyString
  /\ (unconfigured field ->
      configSummary field
        ∈ ["Formula: (not available — check the original base)";
           "(check the original base for rollup configuration)";
           "(check the original base for lookup configuration)";
           "(check the original base for count configuration)"]
      /\ includes (configSummary field) "check the original base" = true
      /\ includes (description i) (configSummary field) = true
      /\ includes (cellInstructions i) (configSummary field) = true).
Proof.
  intros Hty i.
  split; [apply description_not_empty|].
  split; [apply cellInstructions_not_empty|].
  unfold unconfigured, expected, i, buildManualInstructions, configSummary,
    typeLabel.
  intros Hmissing. set_unfold in Hty.
  destruct Hty as [Hty|[Hty|[Hty|[Hty|[]]]]]; rewrite Hty in *;
    simpl in Hmissing; simpl;
    repeat match goal with
      | H : Forall _ (_ :: _) |- _ =>
          apply Forall_cons in H; destruct H as [? H]
      end;
    unfold labelled, if_truthy in *;
    repeat match goal with
      | H : truthy ?x = false |- _ =>
          destruct x as [[|]|]; try discriminate H; clear H
      end;
    vm_compute; (split; [repeat constructor | by repeat split]).
Qed.

Lemma buildManualInstructions_total_witness :
  let i := buildManualInstructions
             (field_of "fld1" "Total" "formula" no_options) in
  description i <> EmptyString /\ cellInstructions i <> EmptyString.
Proof.
  intros i.
  destruct (buildManualInstructions_total
              (field_of "fld1" "Total" "formula" no_options))
    as (Hd & Hc & _).
  - set_unfold. left. reflexivity.
  - split; assumption.
Defined.

End Cleaning.

(** ** [String.replace] *)

Section Replace.
Import Props.

Lemma substring_all s : String.substring 0 (String.length s) s = s.
Proof. induction s as [|c s IH]; simpl; [reflexivity | by rewrite IH]. Qed.

Lemma prefix_split pat : forall s,
  String.prefix pat s = true ->
  s = pat +:+ String.substring (String.length pat)
                (String.length s - String.length pat) s.
Proof.
  induction pat as [|c pat IH]; intros s Hp; simpl.
  - by rewrite Nat.sub_0_r, substring_all.
  - destruct s as [|d s]; [discriminate Hp|]. simpl in Hp.
    destruct (ascii_dec c d) as [->|]; [|discriminate Hp].
    change (String d pat +:+ ?x) with (String d (pat +:+ x)).
    f_equal. by apply IH.
Qed.

Lemma split_first_unfold pat s :
  split_first pat s
  = if String.prefix pat s
    then Some (EmptyString,
               String.substring (String.length pat)
                 (String.length s - String.length pat) s)
    else match s with
         | EmptyString => None
         | String c s' =>
             match split_first pat s' with
             | Some (b, a) => Some (String c b, a)
             | None => None
             end
         end.
Proof. by destruct s. Qed.

(** [split_first] cuts the text around an occurrence of the pattern. *)
Lemma split_first_cut pat : forall s before after,
  split_first pat s = Some (before, after) ->
  s = before +:+ pat +:+ after.
Proof.
  induction s as [|c s IH]; intros before after Hs;
    rewrite split_first_unfold in Hs;
    destruct (String.prefix pat _) eqn:Hp;
    try (injection Hs as <- <-; by apply prefix_split);
    try discriminate Hs.
  destruct (split_first pat s) as [[b a]|]; [|discriminate Hs].
  injection Hs as <- <-.
  change (String c b +:+ ?x) with (String c (b +:+ x)).
  f_equal. by apply IH.
Qed.

Lemma getSubstitution_plain matched before after templ :
  dollar_free templ = true ->
  getSubstitution matched before after templ = templ.
Proof.
  induction templ as [|c tl IH]; intros Hfree; simpl; [reflexivity|].
  simpl in Hfree. apply andb_prop in Hfree as [Hc Htl].
  apply negb_true_iff in Hc. rewrite Hc. f_equal. by apply IH.
Qed.

(** One [replace] with a plain replacement text. *)
Lemma replace_plain text pat templ before after :
  split_first pat text = Some (before, after) ->
  dollar_free templ = true ->
  text = before +:+ pat +:+ after
  /\ replace text pat templ = before +:+ templ +:+ after.
Proof.
  intros Hs Hfree. split; [by apply split_first_cut|].
  unfold replace. by rewrite Hs, getSubstitution_plain.
Qed.

Lemma replace_absent text pat templ :
  split_first pat text = None -> replace text pat templ = text.
Proof. intros Hs. unfold replace. by rewrite Hs. Qed.

End Replace.

(** ** References in the manual instructions *)

Section References.
Import Exporter View Props.

Lemma fold_left_bind {A B C} (step : A -> C -> A) (h : B -> list C)
    (l : list B) : forall a,
  fold_left (fun a x => fold_left step (h x) a) l a
  = fold_left step (l ≫= h) a.
Proof.
  induction l as [|x l IH]; intros a; simpl; [reflexivity|].
  by rewrite fold_left_app, IH.
Qed.

Lemma fold_left_filter {A B} (step : A -> B -> A) (P : B -> Prop)
    `{forall x, Decision (P x)} (test : B -> bool) (l : list B) :
  (forall x, test x = true <-> P x) ->
  forall a,
    fold_left (fun a x => if test x then step a x else a) l a
    = fold_left step (filter P l) a.
Proof.
  intros Htest. induction l as [|x l IH]; intros a; simpl; [reflexivity|].
  rewrite filter_cons. destruct (decide (P x)) as [HP|HP].
  - apply Htest in HP as ->. simpl. apply IH.
  - destruct (test x) eqn:Ht; [by apply Htest in Ht|]. apply IH.
Qed.

Lemma fold_left_omap {A B C} (step : A -> C -> A) (pick : B -> option C)
    (l : list B) : forall a,
  fold_left (fun a x => match pick x with
                        | Some y => step a y
                        | None => a
                        end) l a
  = fold_left step (omap pick l) a.
Proof.
  induction l as [|x l IH]; intros a; simpl; [reflexivity|].
  destruct (pick x); simpl; apply IH.
Qed.

Lemma fold_left_fmap {A B C} (step : A -> C -> A) (h : B -> C)
    (l : list B) : forall a,
  fold_left (fun a x => step a (h x)) l a = fold_left step (h <$> l) a.
Proof.
  induction l as [|x l IH]; intros a; simpl; [reflexivity|]. apply IH.
Qed.

(** The two texts after a run of [replaceBoth]. *)
Lemma replaceBoth_texts id refs : forall mf,
  let mf' := fold_left (fun mf ref => replaceBoth id ref mf) refs mf in
  nf_manualCellInstructions mf'
  = replaceEach id refs <$> nf_manualCellInstructions mf
  /\ nf_manualDescription mf'
     = replaceEach id refs <$> nf_manualDescription mf
  /\ nf_originalOptions mf' = nf_originalOptions mf.
Proof.
  induction refs as [|ref refs IH]; intros mf; simpl.
  - by destruct (nf_manualCellInstructions mf),
      (nf_manualDescription mf).
  - destruct (IH (replaceBoth id ref mf)) as (Hc & Hd & Ho).
    rewrite Hc, Hd, Ho. simpl.
    by destruct (nf_manualCellInstructions mf),
      (nf_manualDescription mf).
Qed.

Lemma resolveRecordLink_refs tables mf id :
  fold_left
    (fun mf t =>
       fold_left
         (fun mf f =>
            if String.eqb (nf_originalId f) id
            then replaceBoth id (fieldRef (nf_name f)) mf
            else mf)
         (creatableFields t ++ linkFields t) mf)
    tables mf
  = fold_left (fun mf ref => replaceBoth id ref mf)
      (recordLinkRefs tables id) mf.
Proof.
  rewrite (fold_left_bind _ (fun t => creatableFields t ++ linkFields t)).
  rewrite (fold_left_filter
             (fun mf f => replaceBoth id (fieldRef (nf_name f)) mf)
             (fun f => nf_originalId f = id)).
  2:{ intros f. apply String.eqb_eq. }
  unfold recordLinkRefs.
  by rewrite <- (fold_left_fmap (fun mf ref => replaceBoth id ref mf)).
Qed.

Lemma linkedFieldRef_spec tables link fieldId f :
  linkedFieldRef tables link fieldId f
  = match linkTarget link f with
    | Some target =>
        match find (fun tt => String.eqb (nt_originalId tt) target) tables
        with
        | Some linkedTable =>
            match find (fun ff => String.eqb (nf_originalId ff) fieldId)
                    (creatableFields linkedTable ++ linkFields linkedTable
                       ++ manualFields linkedTable)
            with
            | Some linkedField =>
                Some (fieldInTableRef (nf_name linkedField)
                        (nt_name linkedTable))
            | None => None
            end
        | None => None
        end
    | None => None
    end.
Proof.
  unfold linkedFieldRef, linkTarget, if_truthy.
  destruct link as [l|]; [|by case_decide].
  destruct (String.eqb_spec (nf_originalId f) l) as [->|Hne].
  - rewrite decide_True by done.
    by destruct (nf_linkedTableId f) as [[|c target]|].
  - rewrite decide_False by congruence. reflexivity.
Qed.

Lemma resolveLinkedField_refs tables mf link fieldId :
  fold_left
    (fun mf t =>
       fold_left
         (fun mf f =>
            match linkTarget link f with
            | Some target =>
                match find (fun tt =>
                         String.eqb (nt_originalId tt) target) tables
                with
                | Some linkedTable =>
                    match find (fun ff =>
                             String.eqb (nf_originalId ff) fieldId)
                            (creatableFields linkedTable
                               ++ linkFields linkedTable
                               ++ manualFields linkedTable)
                    with
                    | Some linkedField =>
                        replaceBoth fieldId
                          (fieldInTableRef (nf_name linkedField)
                             (nt_name linkedTable)) mf
                    | None => mf
                    end
                | None => mf
                end
            | None => mf
            end)
         (linkFields t ++ inverseLinkFields t) mf)
    tables mf
  = fold_left (fun mf ref => replaceBoth fieldId ref mf)
      (linkedFieldRefs tables link fieldId) mf.
Proof.
  rewrite (fold_left_bind _ (fun t => linkFields t ++ inverseLinkFields t)).
  unfold linkedFieldRefs.
  rewrite <- (fold_left_omap (fun mf ref => replaceBoth fieldId ref mf)).
  generalize (tables ≫= (fun t => linkFields t ++ inverseLinkFields t)).
  intros l. revert mf. induction l as [|f l IH]; intros mf; simpl;
    [reflexivity|].
  rewrite linkedFieldRef_spec, <- IH. f_equal.
  repeat case_match; reflexivity.
Qed.

Lemma fmap_same (text : option string) : (fun s => s) <$> text = text.
Proof. by destruct text. Qed.

Lemma resolveRecordLink_texts tables mf o :
  nf_originalOptions mf = Some o ->
  let stage text :=
    if_truthy (recordLinkFieldId o)
      (fun id => replaceEach id (recordLinkRefs tables id) text) text in
  nf_manualCellInstructions (resolveRecordLink tables mf)
  = stage <$> nf_manualCellInstructions mf
  /\ nf_manualDescription (resolveRecordLink tables mf)
     = stage <$> nf_manualDescription mf
  /\ nf_originalOptions (resolveRecordLink tables mf) = Some o.
Proof.
  intros Ho stage. unfold stage, resolveRecordLink. rewrite Ho. simpl.
  unfold if_truthy.
  destruct (recordLinkFieldId o) as [id|];
    [|by rewrite !fmap_same].
  destruct (truthy id); [|by rewrite !fmap_same].
  rewrite resolveRecordLink_refs.
  destruct (replaceBoth_texts id (recordLinkRefs tables id) mf)
    as (Hc & Hd & Hoo).
  simpl in Hc, Hd, Hoo. by rewrite Hc, Hd, Hoo.
Qed.

Lemma resolveLinkedField_texts tables mf o :
  nf_originalOptions mf = Some o ->
  let stage text :=
    if_truthy (fieldIdInLinkedTable o)
      (fun id =>
         replaceEach id
           (linkedFieldRefs tables (recordLinkFieldId o) id) text) text in
  nf_manualCellInstructions (resolveLinkedField tables mf)
  = stage <$> nf_manualCellInstructions mf
  /\ nf_manualDescription (resolveLinkedField tables mf)
     = stage <$> nf_manualDescription mf.
Proof.
  intros Ho stage. unfold stage, resolveLinkedField. rewrite Ho. simpl.
  unfold if_truthy.
  destruct (fieldIdInLinkedTable o) as [fid|];
    [|by rewrite !fmap_same].
  destruct (truthy fid); [|by rewrite !fmap_same].
  rewrite resolveLinkedField_refs.
  destruct (replaceBoth_texts fid
              (linkedFieldRefs tables (recordLinkFieldId o) fid) mf)
    as (Hc & Hd & _).
  simpl in Hc, Hd. by rewrite Hc, Hd.
Qed.

(** The texts of a manual field after [resolveManual]. *)
Lemma resolveManual_texts tables mf o :
  nf_originalOptions mf = Some o ->
  nf_manualCellInstructions (resolveManual tables mf)
  = resolved_text tables o <$> nf_manualCellInstructions mf
  /\ nf_manualDescription (resolveManual tables mf)
     = resolved_text tables o <$> nf_manualDescription mf.
Proof.
  intros Ho. unfold resolveManual.
  destruct (resolveRecordLink_texts tables mf o Ho) as (Hc1 & Hd1 & Ho1).
  destruct (resolveLinkedField_texts tables _ o Ho1) as (Hc2 & Hd2).
  rewrite Hc2, Hd2, Hc1, Hd1. unfold resolved_text.
  by destruct (nf_manualCellInstructions mf), (nf_manualDescription mf).
Qed.

(** The first pass gives every manual field its two texts and its
    original options. *)
Lemma manual_texts_set field :
  classifyField field = manual ->
  let i := buildManualInstructions field in
  nf_manualCellInstructions (normalizeField field)
  = Some (cellInstructions i)
  /\ nf_manualDescription (normalizeField field) = Some (description i)
  /\ nf_originalOptions (normalizeField field)
     = Some (default empty_options (rf_options field)).
Proof. intros Hc. unfold normalizeField. by rewrite Hc. Qed.

Lemma resolved_text_unmatched tables o text :
  unmatched tables o -> resolved_text tables o text = text.
Proof.
  intros [Hlink Hfield]. unfold resolved_text, if_truthy.
  destruct (recordLinkFieldId o) as [id|] eqn:Hl.
  - rewrite (Hlink id eq_refl). simpl.
    destruct (fieldIdInLinkedTable o) as [fid|] eqn:Hf.
    + rewrite (Hfield fid eq_refl). simpl. by repeat case_match.
    + by case_match.
  - destruct (fieldIdInLinkedTable o) as [fid|] eqn:Hf; [|reflexivity].
    rewrite (Hfield fid eq_refl). simpl. by case_match.
Qed.

(** C5, as the exporter has it.  The texts of a manual field are the
    builder's texts after two runs of [String.replace], each call
    replacing the first occurrence of the id.  When the field's
    [recordLinkFieldId] is set, it is replaced by ["<name>" field] once for
    every record of any table's [creatableFields] and [linkFields] (not
    [manualFields]) with that [originalId].  When its
    [fieldIdInLinkedTable] is set, it is replaced by ["<name>" in
    "<table>"] once for every record of any table's [linkFields] and
    [inverseLinkFields] that is the [recordLinkFieldId]'s record, carries a
    top-level [linkedTableId] and leads to a table holding the field in
    its [creatableFields], [linkFields] or [manualFields].  When nothing
    matches, the texts are the builder's.  One replacement by a
    reference without [$] puts the reference where the id first
    occurred. *)
Theorem manual_references_resolved (now : string) (rawSchema : RawSchema)
    (baseName : option string) :
  manual_texts resolved_text rawSchema
    (ns_tables (processSchema now rawSchema baseName))
  /\ (forall tables o text,
        unmatched tables o -> resolved_text tables o text = text)
  /\ (forall text id ref before after,
        split_first id text = Some (before, after) ->
        dollar_free ref = true ->
        text = before +:+ id +:+ after
        /\ replaceEach id [ref] text = before +:+ ref +:+ after).
Proof.
  split; [|split; [apply resolved_text_unmatched|]].
  2:{ intros text id ref before after Hs Hfree.
      by apply replace_plain. }
  pose proof (processSchema_alike now rawSchema baseName) as Hview.
  unfold manual_texts.
  set (out := ns_tables (processSchema now rawSchema baseName)) in *.
  eapply Forall2_fmap_eq; [apply processSchema_tables|].
  intros table _. cbv beta.
  change (manualFields ?t) with (partition manual t).
  rewrite resolveTable_partition. apply Forall2_fmap_diag.
  intros field Hfield. apply list_elem_of_filter in Hfield as [Hc _].
  destruct (manual_texts_set field Hc) as (Hcell & Hdesc & Ho).
  cbn [exported]. rewrite (resolveManual_view _ out _ Hview).
  destruct (resolveManual_texts out (normalizeField field) _ Ho)
    as [Hc' Hd'].
  by rewrite Hc', Hd', Hcell, Hdesc.
Qed.

(** C5, as stated, fails on a lookup whose link field the endpoint
    reports as null: the looked-up field is in the schema, yet its id
    stays in the instructions. *)
Lemma orphan_lookup_unresolved :
  ~ manual_texts stated_text orphan_lookup
      (ns_tables (processSchema EmptyString orphan_lookup None)).
Proof.
  intros Hclaim. unfold manual_texts in Hclaim.
  remember (ns_tables _) as tables eqn:E. vm_compute in E.
  destruct (Forall2_lookup_l _ _ _ 1 _ Hclaim eq_refl)
    as (t & Ht & Hfields).
  subst tables. injection Ht as <-.
  destruct (Forall2_lookup_l _ _ _ 0 _ Hfields eq_refl)
    as (f & Hf & Hcell & _).
  injection Hf as <-. vm_compute in Hcell. discriminate Hcell.
Qed.

(** The scenario of the specification: the rollup of table B names the
    Score field of table A and the Owner link. *)
Example scenario_rollup_description :
  (fun t => nf_manualDescription <$> manualFields t)
    <$> ns_tables (processSchema EmptyString scenario None)
  = [ [];
      [ Some ("⚠️ MANUAL SETUP REQUIRED — Rollup: Summarize field: "
                +:+ fieldInTableRef "Score" "A") ] ].
Proof. vm_compute. reflexivity. Qed.

Example scenario_rollup_cell :
  match ns_tables (processSchema EmptyString scenario None) !! 1 with
  | Some t =>
      match manualFields t with
      | [f] =>
          includes (default EmptyString (nf_manualCellInstructions f))
            ("From linked record field: " +:+ fieldRef "Owner")
      | _ => false
      end
  | None => false
  end = true.
Proof. vm_compute. reflexivity. Qed.

End References.

(** ** Table dependencies of the page generator *)

Section Dependencies.
Import Exporter Generator.

Lemma Set_add_elem x y set : y ∈ Set_add x set <-> y = x \/ y ∈ set.
Proof.
  unfold Set_add. destruct (decide (x ∈ set)) as [Hin|Hout].
  - split; [by right | intros [->|H]; done].
  - rewrite elem_of_app, list_elem_of_singleton. tauto.
Qed.

Lemma Set_add_NoDup x set : NoDup set -> NoDup (Set_add x set).
Proof.
  intros Hset. unfold Set_add. destruct (decide (x ∈ set)); [done|].
  apply NoDup_app. split; [done|]. split; [|apply NoDup_singleton].
  intros y Hy Hx. apply list_elem_of_singleton in Hx. by subst.
Qed.

(** A loop that adds [value x] to a set for the [x] that pass a test. *)
Lemma fold_add_elem {A} (test : A -> bool) (value : A -> Value)
    (l : list A) : forall set n,
  n ∈ fold_left (fun set x => if test x then Set_add (value x) set else set)
        l set
  <-> n ∈ set \/ exists x, x ∈ l /\ test x = true /\ value x = n.
Proof.
  induction l as [|x l IH]; intros set n; simpl.
  - split; [by left | intros [H|(x & Hx & _)]; [done|]].
    by apply not_elem_of_nil in Hx.
  - rewrite IH. destruct (test x) eqn:Ht.
    + rewrite Set_add_elem. split.
      * intros [[->|H]|(y & Hy & Hty & Hv)]; [right|by left|right].
        -- exists x. split; [apply list_elem_of_here | done].
        -- exists y. split; [by apply list_elem_of_further | done].
      * intros [H|(y & Hy & Hty & Hv)]; [left; by right|].
        apply elem_of_cons in Hy as [->|Hy]; [left; by left|].
        right. by exists y.
    + split.
      * intros [H|(y & Hy & Hty & Hv)]; [by left|right].
        exists y. split; [by apply list_elem_of_further | done].
      * intros [H|(y & Hy & Hty & Hv)]; [by left|].
        apply elem_of_cons in Hy as [->|Hy]; [congruence|].
        right. by exists y.
Qed.

Lemma fold_add_NoDup {A} (test : A -> bool) (value : A -> Value)
    (l : list A) : forall set,
  NoDup set ->
  NoDup (fold_left
           (fun set x => if test x then Set_add (value x) set else set)
           l set).
Proof.
  induction l as [|x l IH]; intros set Hset; simpl; [done|].
  apply IH. destruct (test x); [by apply Set_add_NoDup | done].
Qed.

(** The same for a loop inside a loop, the value and the test depending
    on the outer element. *)
Lemma fold_fold_add_elem {A B} (test : A -> B -> bool) (value : A -> Value)
    (inner : A -> list B) (l : list A) : forall set n,
  n ∈ fold_left
        (fun set t =>
           fold_left
             (fun set x => if test t x then Set_add (value t) set else set)
             (inner t) set)
        l set
  <-> n ∈ set
      \/ exists t x,
           t ∈ l /\ x ∈ inner t /\ test t x = true /\ value t = n.
Proof.
  induction l as [|t l IH]; intros set n; simpl.
  - split; [by left | intros [H|(t & x & Ht & _)]; [done|]].
    by apply not_elem_of_nil in Ht.
  - rewrite IH, (fold_add_elem (test t) (fun _ => value t)). split.
    + intros [[H|(x & Hx & Htx & Hv)]|(u & x & Hu & Hx & Htx & Hv)].
      * by left.
      * right. exists t, x. split; [apply list_elem_of_here | done].
      * right. exists u, x. split; [by apply list_elem_of_further | done].
    + intros [H|(u & x & Hu & Hx & Htx & Hv)]; [left; by left|].
      apply elem_of_cons in Hu as [->|Hu].
      * left. right. by exists x.
      * right. by exists u, x.
Qed.

Lemma fold_fold_add_NoDup {A B} (test : A -> B -> bool)
    (value : A -> Value) (inner : A -> list B) (l : list A) : forall set,
  NoDup set ->
  NoDup (fold_left
           (fun set t =>
              fold_left
                (fun set x =>
                   if test t x then Set_add (value t) set else set)
                (inner t) set)
           l set).
Proof.
  induction l as [|t l IH]; intros set Hset; simpl; [done|].
  apply IH. by apply (fold_add_NoDup (test t) (fun _ => value t)).
Qed.

Lemma is_string_true v s : is_string v s = true <-> v = Str s.
Proof.
  destruct v as [s'|member]; simpl; [|split; discriminate].
  rewrite String.eqb_eq. split; congruence.
Qed.

Lemma strict_eq_true a b : strict_eq a b = true <-> a = Some (Str b).
Proof.
  unfold strict_eq. destruct a as [v|]; [|split; discriminate].
  rewrite is_string_true. split; congruence.
Qed.

Lemma truthy_value_true (v : Value) :
  truthy v = true <-> v <> Str EmptyString.
Proof.
  destruct v as [[|c s]|member]; split; try done.
Qed.

(** The values [getTableDependencies] returns. *)
Lemma dependencies_elem table allTables v :
  v ∈ getTableDependencies table allTables
  <-> v <> Str (nt_name table)
      /\ ((v <> Str EmptyString
           /\ exists lf,
                lf ∈ linkFields table /\ nf_linkedTableName lf = Some v)
          \/ (exists t lf,
                t ∈ allTables /\ lf ∈ linkFields t /\ Str (nt_name t) = v
                /\ nf_linkedTableName lf = Some (Str (nt_name table)))).
Proof.
  unfold getTableDependencies.
  rewrite (fold_fold_add_elem
             (fun t lf =>
                strict_eq (nf_linkedTableName lf) (nt_name table)
                && negb (String.eqb (nt_name t) (nt_name table)))
             (fun t => Str (nt_name t)) linkFields).
  rewrite (fold_add_elem
             (fun lf =>
                truthy (nf_linkedTableName lf)
                && negb (strict_eq (nf_linkedTableName lf) (nt_name table)))
             (fun lf => default (Str EmptyString) (nf_linkedTableName lf))).
  split.
  - intros [[H|(lf & Hlf & Htest & Hv)]|(t & lf & Ht & Hlf & Htest & Hv)].
    + by apply not_elem_of_nil in H.
    + apply andb_prop in Htest as [Htruthy Hne].
      apply negb_true_iff in Hne.
      destruct (nf_linkedTableName lf) as [m|] eqn:Hm; [|discriminate].
      simpl in Hv. subst m.
      split.
      { intros ->. apply not_true_iff_false in Hne. apply Hne.
        by apply strict_eq_true. }
      left. split; [by apply truthy_value_true|]. by exists lf.
    + apply andb_prop in Htest as [Heq Hne].
      apply negb_true_iff, String.eqb_neq in Hne.
      apply strict_eq_true in Heq.
      split; [congruence|]. right. by exists t, lf.
  - intros [Hne [[Hn (lf & Hlf & Hm)]|(t & lf & Ht & Hlf & Hname & Hm)]].
    + left. right. exists lf. split; [exact Hlf|]. rewrite Hm. simpl.
      split; [|reflexivity]. apply andb_true_intro. split.
      * by apply truthy_value_true.
      * apply negb_true_iff, not_true_iff_false.
        intros Heq. apply is_string_true in Heq. done.
    + right. exists t, lf. split; [exact Ht|]. split; [exact Hlf|].
      split; [|exact Hname]. apply andb_true_intro. split.
      * by apply strict_eq_true.
      * apply negb_true_iff, String.eqb_neq. congruence.
Qed.

Lemma dependencies_NoDup table allTables :
  NoDup (getTableDependencies table allTables).
Proof.
  unfold getTableDependencies.
  apply (fold_fold_add_NoDup
           (fun t lf =>
              strict_eq (nf_linkedTableName lf) (nt_name table)
              && negb (String.eqb (nt_name t) (nt_name table)))
           (fun t => Str (nt_name t)) linkFields).
  apply (fold_add_NoDup
           (fun lf =>
              truthy (nf_linkedTableName lf)
              && negb (strict_eq (nf_linkedTableName lf) (nt_name table)))
           (fun lf => default (Str EmptyString) (nf_linkedTableName lf))).
  apply NoDup_nil_2.
Qed.

End Dependencies.

(** ** The per-table schemas of the page generator *)

Section PerTable.
Import Exporter Props Generator MoreProps.

(** X1.  [getTableDependencies] returns, without repetition and never
    with the table's own name, exactly the values that differ from the
    table's name and are either the [linkedTableName] of one of its link
    fields, when that is not the empty string, or the name of a table
    with a link field to it. *)
Theorem table_dependencies (table : NormalizedTable)
    (allTables : list NormalizedTable) :
  let deps := getTableDependencies table allTables in
  NoDup deps
  /\ (Str (nt_name table) ∉ deps)
  /\ (forall v,
        v ∈ deps
        <-> v <> Str (nt_name table)
            /\ ((v <> Str EmptyString
                 /\ exists lf,
                      lf ∈ linkFields table
                      /\ nf_linkedTableName lf = Some v)
                \/ (exists t lf,
                      t ∈ allTables /\ lf ∈ linkFields t
                      /\ Str (nt_name t) = v
                      /\ nf_linkedTableName lf
                         = Some (Str (nt_name table))))).
Proof.
  intros deps. split; [apply dependencies_NoDup|].
  split; [|intros v; apply dependencies_elem].
  intros Hself. apply dependencies_elem in Hself as [Hne _]. done.
Qed.

(** X2.  Among tables with distinct names, depending is mutual: when
    table [b] is a dependency of a named table [a], [a] is one of
    [b]. *)
Theorem dependencies_mutual (allTables : list NormalizedTable)
    (a b : NormalizedTable) :
  NoDup (nt_name <$> allTables) ->
  a ∈ allTables -> b ∈ allTables ->
  nt_name a <> EmptyString ->
  Str (nt_name b) ∈ getTableDependencies a allTables ->
  Str (nt_name a) ∈ getTableDependencies b allTables.
Proof.
  intros Hnames Ha Hb Hnamed Hdep.
  apply dependencies_elem in Hdep
    as [Hne [[_ (lf & Hlf & Hto)]|(t & lf & Ht & Hlf & Hname & Hto)]];
    apply dependencies_elem; (split; [congruence|]).
  - right. by exists a, lf.
  - left. split; [congruence|].
    assert (t = b) as ->; [|by exists lf].
    apply list_elem_of_lookup in Ht as [i Hi].
    apply list_elem_of_lookup in Hb as [j Hj].
    assert (i = j) as ->; [|congruence].
    eapply NoDup_lookup; [exact Hnames| |].
    + rewrite list_lookup_fmap, Hi. reflexivity.
    + rewrite list_lookup_fmap, Hj. simpl. congruence.
Qed.

Lemma dependencies_mutual_witness :
  Str (nt_name (table_at scenario_tables 1))
  ∈ getTableDependencies (table_at scenario_tables 0) scenario_tables.
Proof.
  apply (dependencies_mutual scenario_tables (table_at scenario_tables 1)
           (table_at scenario_tables 0)).
  - vm_compute. apply NoDup_cons. split.
    + intros H. apply list_elem_of_singleton in H. discriminate H.
    + apply NoDup_singleton.
  - vm_compute. apply list_elem_of_further, list_elem_of_here.
  - vm_compute. apply list_elem_of_here.
  - discriminate.
  - vm_compute. apply list_elem_of_here.
Defined.

(** The tables [createPerTableSchema] collects. *)
Lemma included_tables (tables : list NormalizedTable) (deps : list Value) :
  forall included,
    fold_left
      (fun includedTables depName =>
         match find (fun t => is_string depName (nt_name t)) tables with
         | Some depTable => includedTables ++ [depTable]
         | None => includedTables
         end)
      deps included
    = included
        ++ omap (fun depName =>
                   find (fun t => is_string depName (nt_name t)) tables)
             deps.
Proof.
  induction deps as [|d deps IH]; intros included; simpl.
  - by rewrite app_nil_r.
  - rewrite IH. destruct (find _ tables); [|reflexivity].
    by rewrite <- app_assoc.
Qed.

Lemma find_name_Some (tables : list NormalizedTable) v t :
  find (fun t => is_string v (nt_name t)) tables = Some t ->
  t ∈ tables /\ Str (nt_name t) = v.
Proof.
  intros Hfind. apply find_some in Hfind as [Hin Heq].
  split; [by apply list_elem_of_In|].
  symmetry. by apply is_string_true.
Qed.

Lemma find_name_is_Some (tables : list NormalizedTable) t :
  t ∈ tables ->
  exists u,
    find (fun u => is_string (Str (nt_name t)) (nt_name u)) tables = Some u.
Proof.
  intros Hin.
  destruct (find _ tables) as [u|] eqn:Hfind; [by exists u|].
  apply list_elem_of_In in Hin.
  pose proof (find_none _ _ Hfind t Hin) as Hne. simpl in Hne.
  by rewrite String.eqb_refl in Hne.
Qed.

Lemma omap_find_names (tables : list NormalizedTable) (deps : list Value) :
  Forall2 (fun t v => t ∈ tables /\ Str (nt_name t) = v)
    (omap (fun v => find (fun t => is_string v (nt_name t)) tables)
       (filter (fun v =>
                  is_Some (find (fun t => is_string v (nt_name t)) tables))
          deps))
    (filter (fun v =>
               is_Some (find (fun t => is_string v (nt_name t)) tables))
       deps).
Proof.
  induction deps as [|d deps IH]; simpl; [constructor|].
  rewrite filter_cons. destruct (decide _) as [[t Ht]|Hno]; [|exact IH].
  simpl. rewrite Ht. constructor; [by apply find_name_Some | exact IH].
Qed.

Lemma omap_filter_is_Some {A B} (f : A -> option B) (l : list A) :
  omap f (filter (fun x => is_Some (f x)) l) = omap f l.
Proof.
  induction l as [|x l IH]; [reflexivity|].
  rewrite filter_cons. destruct (f x) as [y|] eqn:Hy.
  - rewrite decide_True by eauto. simpl. rewrite Hy. f_equal. exact IH.
  - rewrite decide_False by (intros [? ?]; congruence).
    simpl. rewrite Hy. exact IH.
Qed.

(** The names of the collected tables are the dependencies that name a
    table, in order. *)
Lemma included_names (tables : list NormalizedTable) (deps : list Value) :
  (fun t => Str (nt_name t))
    <$> omap (fun v => find (fun t => is_string v (nt_name t)) tables) deps
  = filter (fun v =>
              is_Some (find (fun t => is_string v (nt_name t)) tables))
      deps.
Proof.
  rewrite <- (omap_filter_is_Some
                (fun v => find (fun t => is_string v (nt_name t)) tables)).
  generalize (omap_find_names tables deps).
  generalize (filter
                (fun v =>
                   is_Some
                     (find (fun t => is_string v (nt_name t)) tables))
                deps).
  intros vs.
  generalize (omap
                (fun v => find (fun t => is_string v (nt_name t)) tables)
                vs).
  intros ts H.
  induction H as [|t v ts' vs' [_ Hv] _ IH]; [reflexivity|].
  by rewrite fmap_cons, Hv, IH.
Qed.

(** X3.  The schema [createPerTableSchema] builds starts with the table
    itself, counts its tables, holds after the first only tables of the
    full schema whose names are dependencies of the table, and holds no
    two tables of the same name. *)
Theorem per_table_schema_shape (table : NormalizedTable)
    (fullSchema : NormalizedSchema) :
  let s := createPerTableSchema table fullSchema in
  let deps := getTableDependencies table (ns_tables fullSchema) in
  head (pt_tables s) = Some table
  /\ pt_primaryTable s = nt_name table
  /\ pt_tableCount s = length (pt_tables s)
  /\ pt_tableCount s <= 1 + length deps
  /\ (forall t, t ∈ tail (pt_tables s) ->
        t ∈ ns_tables fullSchema /\ Str (nt_name t) ∈ deps)
  /\ NoDup (nt_name <$> pt_tables s).
Proof.
  intros s deps. unfold s, createPerTableSchema. simpl.
  fold deps. rewrite included_tables. simpl.
  split; [reflexivity|]. split; [reflexivity|]. split; [reflexivity|].
  split.
  { apply le_n_S.
    rewrite <- (length_fmap (fun t => Str (nt_name t))), included_names.
    apply length_filter. }
  split.
  { intros t Ht. apply list_elem_of_omap in Ht as (v & Hv & Hfind).
    apply find_name_Some in Hfind as [Hin Hname]. by subst v. }
  apply (NoDup_fmap_1 Str). rewrite fmap_cons, <- list_fmap_compose.
  change (Str ∘ nt_name) with (fun t => Str (nt_name t)).
  rewrite included_names. apply NoDup_cons. split.
  - rewrite list_elem_of_filter. intros [_ Hself].
    by apply dependencies_elem in Hself as [Hne _].
  - apply NoDup_filter, dependencies_NoDup.
Qed.

(** X4.  The per-table schema holds what the table's links need: a
    table for every non-empty [linkedTableName] of its link fields that
    names a table of the full schema, and a table named like every table
    of the full schema that has a link field to it. *)
Theorem per_table_links_included (table : NormalizedTable)
    (fullSchema : NormalizedSchema) :
  let s := createPerTableSchema table fullSchema in
  (forall lf n,
     lf ∈ linkFields table -> nf_linkedTableName lf = Some (Str n) ->
     n <> EmptyString ->
     (exists t, t ∈ ns_tables fullSchema /\ nt_name t = n) ->
     exists t, t ∈ pt_tables s /\ nt_name t = n)
  /\ (forall t lf,
        t ∈ ns_tables fullSchema -> lf ∈ linkFields t ->
        nf_linkedTableName lf = Some (Str (nt_name table)) ->
        exists u, u ∈ pt_tables s /\ nt_name u = nt_name t).
Proof.
  intros s.
  assert (Hdep : forall t,
            t ∈ ns_tables fullSchema ->
            Str (nt_name t)
            ∈ getTableDependencies table (ns_tables fullSchema) ->
            exists u, u ∈ pt_tables s /\ nt_name u = nt_name t).
  { intros t Ht Hin.
    destruct (find_name_is_Some _ t Ht) as [u Hu].
    exists u. split.
    - unfold s, createPerTableSchema. simpl. rewrite included_tables.
      apply elem_of_app. right. apply list_elem_of_omap.
      by exists (Str (nt_name t)).
    - apply find_name_Some in Hu as [_ Hname]. congruence. }
  assert (Hself : table ∈ pt_tables s).
  { unfold s, createPerTableSchema. simpl. rewrite included_tables.
    apply list_elem_of_here. }
  split.
  - intros lf n Hlf Hto Hn (t & Ht & Hname).
    destruct (decide (n = nt_name table)) as [->|Hne]; [by exists table|].
    subst n. apply Hdep; [exact Ht|].
    apply dependencies_elem. split; [congruence|]. left.
    split; [congruence|]. by exists lf.
  - intros t lf Ht Hlf Hto.
    destruct (decide (nt_name t = nt_name table)) as [Heq|Hne];
      [by exists table|].
    apply Hdep; [exact Ht|].
    apply dependencies_elem. split; [congruence|]. right. by exists t, lf.
Qed.

Lemma per_table_links_included_witness :
  exists t,
    t ∈ pt_tables
          (createPerTableSchema (table_at scenario_tables 1) scenario_schema)
    /\ nt_name t = "A".
Proof.
  destruct (per_table_links_included (table_at scenario_tables 1)
              scenario_schema) as [Hforward _].
  eapply Hforward.
  - vm_compute. apply list_elem_of_here.
  - vm_compute. reflexivity.
  - discriminate.
  - eexists. split; [vm_compute; apply list_elem_of_here | reflexivity].
Defined.

End PerTable.

(** ** File names and pages *)

Section Pages.
Import Props Generator MoreProps.

Lemma in_class_spec u :
  in_class u = true
  <-> (97 <= u <= 122 \/ 65 <= u <= 90 \/ 48 <= u <= 57
       \/ u = 95 \/ u = 45)%N.
Proof.
  unfold in_class.
  rewrite !orb_true_iff, !andb_true_iff, !N.leb_le, !N.eqb_eq. tauto.
Qed.

Lemma lower_unit_spec u :
  ((65 <= u <= 90)%N /\ lower_unit u = (u + 32)%N)
  \/ (~ (65 <= u <= 90)%N /\ lower_unit u = u).
Proof.
  unfold lower_unit.
  destruct (N.leb_spec 65 u), (N.leb_spec u 90); simpl;
    [left | right | right | right]; split; try reflexivity; lia.
Qed.

Lemma sanitize_unit u :
  let v := lower_unit (if in_class u then u else 45%N) in
  filename_unit v /\ lower_unit (if in_class v then v else 45%N) = v.
Proof.
  intros v.
  assert (Hv : filename_unit v).
  { unfold v, filename_unit. destruct (in_class u) eqn:Hu.
    - apply in_class_spec in Hu.
      destruct (lower_unit_spec u) as [[Hup ->]|[Hup ->]]; lia.
    - vm_compute. right. right. right. reflexivity. }
  split; [exact Hv|].
  assert (in_class v = true) as ->.
  { apply in_class_spec. unfold filename_unit in Hv. lia. }
  destruct (lower_unit_spec v) as [[Hup _]|[_ ->]]; [|reflexivity].
  unfold filename_unit in Hv. lia.
Qed.

(** X5.  [sanitizeFilename] keeps the length of the name, returns only
    the units [a-z], [0-9], [_] and [-] (no separator, no dot, no capital
    letter), and changes nothing in a name it has already cleaned. *)
Theorem sanitizeFilename_safe (name : utf16) :
  length (sanitizeFilename name) = length name
  /\ Forall filename_unit (sanitizeFilename name)
  /\ sanitizeFilename (sanitizeFilename name) = sanitizeFilename name.
Proof.
  unfold sanitizeFilename. rewrite !length_fmap. split; [reflexivity|].
  rewrite <- !list_fmap_compose. split.
  - apply Forall_fmap, Forall_forall. intros u _. apply sanitize_unit.
  - apply list_fmap_ext. intros i u _. simpl. apply sanitize_unit.
Qed.

Lemma getSubstitution_app_plain matched before after plain templ :
  dollar_free plain = true ->
  getSubstitution matched before after (plain +:+ templ)
  = plain +:+ getSubstitution matched before after templ.
Proof.
  induction plain as [|c tl IH]; intros Hfree; [reflexivity|].
  simpl in Hfree. apply andb_prop in Hfree as [Hc Htl].
  apply negb_true_iff in Hc.
  change (String c tl +:+ ?x) with (String c (tl +:+ x)).
  simpl. rewrite Hc. f_equal. by apply IH.
Qed.

(** X6.  [generateHtml] puts the schema JSON where the template first
    has the schema placeholder, and then replaces the proxy placeholder
    in the text so obtained.  The JSON goes in as it is when it holds no
    [$]; a [$$] in it comes out as a single [$]. *)
Theorem generateHtml_injects (template proxyUrl before after : string) :
  split_first SCHEMA_PLACEHOLDER template = Some (before, after) ->
  template = before +:+ SCHEMA_PLACEHOLDER +:+ after
  /\ (forall json,
        dollar_free json = true ->
        generateHtml template json proxyUrl
        = replace (before +:+ json +:+ after) PROXY_PLACEHOLDER proxyUrl)
  /\ (forall j1 j2,
        dollar_free j1 = true -> dollar_free j2 = true ->
        generateHtml template (j1 +:+ "$$" +:+ j2) proxyUrl
        = replace (before +:+ (j1 +:+ "$" +:+ j2) +:+ after)
            PROXY_PLACEHOLDER proxyUrl).
Proof.
  intros Hcut. split; [by apply split_first_cut|]. split.
  - intros json Hfree. unfold generateHtml.
    by destruct (replace_plain template SCHEMA_PLACEHOLDER json
                   before after Hcut Hfree) as [_ ->].
  - intros j1 j2 H1 H2. unfold generateHtml. f_equal.
    unfold replace at 1. rewrite Hcut. f_equal. f_equal.
    rewrite getSubstitution_app_plain by exact H1. f_equal.
    change ("$$" +:+ j2) with (String "$" (String "$" j2)).
    simpl. by rewrite getSubstitution_plain.
Qed.

Lemma generateHtml_injects_witness :
  generateHtml sample_template "{}" "https://relay.example"
  = replace ("<script>const S = " +:+ "{}"
               +:+ "; const P = '__PROXY_URL_PLACEHOLDER__';</script>")
      PROXY_PLACEHOLDER "https://relay.example".
Proof.
  destruct (generateHtml_injects sample_template "https://relay.example"
              "<script>const S = "
              "; const P = '__PROXY_URL_PLACEHOLDER__';</script>")
    as (_ & Hplain & _).
  - vm_compute. reflexivity.
  - apply Hplain. reflexivity.
Defined.

End Pages.

(** ** More on the relay *)

Section Allowlist.
Import Worker.

Lemma array_includes_elem array x :
  array_includes array x = true <-> x ∈ array.
Proof.
  unfold array_includes. rewrite existsb_exists, list_elem_of_In. split.
  - intros (y & Hy & Heq). apply String.eqb_eq in Heq. by subst.
  - intros Hx. exists x. split; [exact Hx | apply String.eqb_refl].
Qed.

Lemma isOriginAllowed_elem allowed origin :
  isOriginAllowed allowed origin = true
  <-> "*" ∈ allowed \/ origin ∈ allowed.
Proof.
  unfold isOriginAllowed.
  destruct (array_includes allowed "*") eqn:Hstar.
  - apply array_includes_elem in Hstar. tauto.
  - rewrite array_includes_elem. split; [tauto|].
    intros [H|H]; [|exact H].
    apply array_includes_elem in H. congruence.
Qed.

End Allowlist.

Section RelayMore.
Import Worker RelayProps MoreProps.
Variable allowed : list string.
Variable upstream : string -> FetchOpts -> Upstream.

(** The handler answers at once, or forwards an accepted request. *)
Lemma fetch_cases request :
  (exists response, fetch allowed request = Ret response)
  \/ (exists url,
        accepted allowed request url
        /\ fetch allowed request
           = forward request (origin_of request)
               (or_default (get request METHOD_HEADER) "POST") url).
Proof.
  unfold fetch, accepted, origin_of, TARGET_HEADER, METHOD_HEADER,
    UPSTREAM_ORIGIN.
  destruct (String.eqb (req_method request) "OPTIONS"); [left; eauto|].
  destruct (String.eqb_spec (req_method request) "POST") as [Hp|Hp];
    simpl; [|left; eauto].
  destruct (isOriginAllowed allowed _) eqn:Ho; simpl; [|left; eauto].
  destruct (get request "X-Airtable-Target-Url") as [url|];
    [|left; eauto].
  destruct (startsWith url _) eqn:Hs; simpl.
  - destruct url; [discriminate Hs|]. simpl. right. eexists.
    split; [|reflexivity]. by repeat split.
  - rewrite orb_true_r. left. eauto.
Qed.

(** X7.  Whatever the request, the relay makes at most one upstream call,
    and only to a URL that starts with https://api.airtable.com/. *)
Theorem upstream_calls_guarded (request : Request) :
  length (serve allowed upstream request).2 <= 1
  /\ Forall (fun call => startsWith call.1 UPSTREAM_ORIGIN = true)
       (serve allowed upstream request).2.
Proof.
  unfold serve.
  destruct (fetch_cases request) as [[response ->]|(url & Hacc & ->)];
    simpl.
  - split; [lia | constructor].
  - destruct Hacc as (_ & _ & _ & Hs).
    split; [lia|]. by repeat constructor.
Qed.

(** X8.  An accepted request goes upstream once, to the URL of its
    target header, with the method of its method header (POST when there
    is none).  Of the request's headers only a non-empty Authorization is
    passed on, next to a JSON content type; the request's body is passed
    on exactly when the method, in any case of letters, is POST, PATCH or
    PUT. *)
Theorem forward_faithful (request : Request) (url : string) :
  accepted allowed request url ->
  exists opts,
    (serve allowed upstream request).2 = [(url, opts)]
    /\ fo_method opts = or_default (get request METHOD_HEADER) "POST"
    /\ (forall h, h ∈ fo_headers opts
                  <-> forwardable (get request "Authorization") h)
    /\ fo_body opts
       = (if array_includes ["POST"; "PATCH"; "PUT"]
               (toUpperCase (fo_method opts))
          then Some (req_text request) else None).
Proof.
  intros (Hm & Ho & Ht & Hs). unfold serve.
  rewrite (fetch_forwarded allowed request url Hm Ho Ht Hs).
  simpl. eexists. split; [reflexivity|]. simpl.
  split; [reflexivity|]. split; [|reflexivity].
  intros h. unfold forwardable.
  destruct (get request "Authorization") as [[|c token]|]; simpl.
  - rewrite list_elem_of_singleton. split; [by left|].
    intros [->|(t & Ht' & Hne & _)]; [done|]. congruence.
  - rewrite elem_of_cons, list_elem_of_singleton. split.
    + intros [-> | ->]; [by left|right]. by eexists.
    + intros [->|(t & Ht' & _ & ->)]; [by left|right]. congruence.
  - rewrite list_elem_of_singleton. split; [by left|].
    intros [->|(t & Ht' & _)]; [done|discriminate].
Qed.

(** X9.  An accepted request gets the upstream's answer back: the status
    and the text of a reply whose status [Response] accepts with a body,
    and a 502 with the exception's message when the upstream call throws.
    Both carry the request's origin as Access-Control-Allow-Origin, the
    reply with [*] in place of an empty origin. *)
Theorem reply_relayed (request : Request) (url : string) :
  accepted allowed request url ->
  exists opts,
    (serve allowed upstream request).2 = [(url, opts)]
    /\ let response := (serve allowed upstream request).1 in
       match upstream url opts with
       | Replied code text =>
           relayable code ->
           status response = code /\ body response = Text text
           /\ header response CORS_HEADER
              = Some (or_else (origin_of request) "*")
       | Threw message =>
           status response = 502
           /\ body response = ErrorJson ("Proxy fetch failed: " +:+ message)
           /\ header response CORS_HEADER = Some (origin_of request)
       end.
Proof.
  intros (Hm & Ho & Ht & Hs). unfold serve.
  rewrite (fetch_forwarded allowed request url Hm Ho Ht Hs).
  simpl. eexists. split; [reflexivity|]. simpl.
  destruct (upstream url _) as [code text|message]; [|done].
  intros [[Hlo Hhi] Hnull]. unfold relayed, new_Response.
  rewrite (proj2 (Nat.leb_le _ _) Hlo), (proj2 (Nat.leb_le _ _) Hhi).
  simpl.
  assert (null_body_status code = false) as ->; [|done].
  unfold null_body_status. simpl.
  destruct (Nat.eqb_spec code 101); [lia|].
  destruct (Nat.eqb_spec code 103); [lia|].
  destruct (Nat.eqb_spec code 204) as [->|]; [set_solver|].
  destruct (Nat.eqb_spec code 205) as [->|]; [set_solver|].
  destruct (Nat.eqb_spec code 304) as [->|]; [set_solver|]. reflexivity.
Qed.

(** X10.  With an allowlist that does not hold [*], a request whose
    origin (the empty string when it has no Origin header) is not listed
    never reaches the upstream: the preflight and the POST are answered
    403, any other method 405. *)
Theorem origin_gate (request : Request) :
  "*" ∉ allowed ->
  origin_of request ∉ allowed ->
  (serve allowed upstream request).2 = []
  /\ status (serve allowed upstream request).1
     = (if String.eqb (req_method request) "OPTIONS" then 403
        else if String.eqb (req_method request) "POST" then 403
        else 405).
Proof.
  intros Hstar Horigin.
  assert (Hno : isOriginAllowed allowed (origin_of request) = false).
  { destruct (isOriginAllowed allowed _) eqn:H; [|reflexivity].
    apply isOriginAllowed_elem in H. tauto. }
  unfold origin_of in Hno. unfold serve, fetch, handlePreflight.
  destruct (String.eqb (req_method request) "OPTIONS").
  - by rewrite Hno.
  - destruct (String.eqb (req_method request) "POST"); simpl; [|done].
    by rewrite Hno.
Qed.

(** X11.  The preflight of an accepted request is answered 204 without
    an upstream call and without a body; it allows the origin the relayed
    reply is then released to, the method POST, and each of the headers a
    client of the relay sends. *)
Theorem preflight_approves (request : Request) (url : string) :
  accepted allowed request url ->
  let answer := serve allowed upstream (as_preflight request) in
  answer.2 = []
  /\ status answer.1 = 204
  /\ body answer.1 = NoBody
  /\ header answer.1 CORS_HEADER = Some (or_else (origin_of request) "*")
  /\ (exists methods,
        header answer.1 "Access-Control-Allow-Methods" = Some methods
        /\ includes methods "POST" = true)
  /\ (exists names,
        header answer.1 "Access-Control-Allow-Headers" = Some names
        /\ Forall (fun name => includes names name = true)
             ["Content-Type"; "Authorization"; TARGET_HEADER;
              METHOD_HEADER]).
Proof.
  intros (_ & Ho & _ & _) answer. unfold answer, serve, fetch. simpl.
  unfold handlePreflight.
  change (get (as_preflight request) "Origin") with (get request "Origin").
  rewrite Ho. simpl. unfold origin_of.
  split; [reflexivity|]. split; [reflexivity|]. split; [reflexivity|].
  split; [reflexivity|]. split.
  - eexists. split; reflexivity.
  - eexists. split; [reflexivity|]. by repeat constructor.
Qed.

End RelayMore.

(** *** Witnesses *)

Section RelayMoreExamples.
Import Worker RelayProps MoreProps.

Lemma patch_request_accepted :
  accepted ALLOWED_ORIGINS patch_request
    "https://api.airtable.com/v0/app1/Tasks".
Proof. by repeat split. Qed.

Lemma forward_faithful_witness :
  exists opts,
    (serve ALLOWED_ORIGINS upstream_ok patch_request).2
    = [("https://api.airtable.com/v0/app1/Tasks", opts)]
    /\ fo_method opts = "patch"
    /\ fo_body opts = Some "{}".
Proof.
  destruct (forward_faithful ALLOWED_ORIGINS upstream_ok patch_request _
              patch_request_accepted)
    as (opts & Hcalls & Hmethod & _ & Hbody).
  exists opts. split; [exact Hcalls|].
  rewrite Hbody, Hmethod. split; reflexivity.
Defined.

Lemma reply_relayed_witness :
  status (serve ALLOWED_ORIGINS upstream_ok patch_request).1 = 200.
Proof.
  destruct (reply_relayed ALLOWED_ORIGINS upstream_ok patch_request _
              patch_request_accepted)
    as (opts & _ & Hreply).
  simpl in Hreply. apply Hreply. split; [lia|].
  intros H.
  repeat (apply elem_of_cons in H as [H|H]; [discriminate H|]).
  by apply not_elem_of_nil in H.
Defined.

Lemma origin_gate_witness :
  (serve school_only upstream_ok stray_post).2 = []
  /\ status (serve school_only upstream_ok stray_post).1 = 403.
Proof.
  apply (origin_gate school_only upstream_ok stray_post).
  - intros H. apply list_elem_of_singleton in H. discriminate H.
  - intros H. apply list_elem_of_singleton in H. discriminate H.
Defined.

Lemma preflight_approves_witness :
  status (serve ALLOWED_ORIGINS upstream_ok (as_preflight patch_request)).1
  = 204.
Proof.
  apply (preflight_approves ALLOWED_ORIGINS upstream_ok patch_request _
           patch_request_accepted).
Defined.

(** An upstream answer without content is relayed with its status. *)
Example no_content_relayed :
  status (serve ALLOWED_ORIGINS upstream_no_content patch_request).1 = 204
  /\ body (serve ALLOWED_ORIGINS upstream_no_content patch_request).1
     = NoBody.
Proof. split; reflexivity. Qed.

End RelayMoreExamples.

(** ** More on the exporter *)

Section ExporterMore.
Import Exporter View Props MoreProps.

(** X12.  The second pass, run on any tables, rewrites nothing but the
    [linkedTableName] of link fields and the two texts of manual fields:
    the tables keep their order, ids, names and other arrays. *)
Theorem second_pass_frame (tables : list NormalizedTable) :
  Forall2 framed tables (resolveReferences tables).
Proof.
  rewrite resolveReferences_map. apply Forall2_fmap_diag.
  intros t _. unfold framed. simpl. split_and!; try reflexivity.
  - apply Forall2_fmap_diag. by intros f _.
  - apply Forall2_fmap_diag. intros f _.
    by apply (resolveManual_keeps (set_texts None None)).
Qed.

(** X13.  The loops of the second pass write into the tables they read,
    yet no iteration sees what another wrote: the result is that of
    resolving every table against the tables as they were before the
    pass. *)
Theorem second_pass_reads_input (tables : list NormalizedTable) :
  resolveReferences tables
  = (fun t =>
       with_manualFields (resolveManual tables <$> manualFields t)
         (with_linkFields
            (resolveLink (tableIdToName tables) <$> linkFields t) t))
      <$> tables.
Proof. apply resolveReferences_map. Qed.

Lemma one_line_app a b :
  one_line (a +:+ b) = one_line a && one_line b.
Proof.
  induction a as [|c a IH]; [reflexivity|].
  change (String c a +:+ b) with (String c (a +:+ b)). simpl.
  by rewrite IH, andb_assoc.
Qed.

Lemma one_line_first_line text : one_line (first_line text) = true.
Proof.
  induction text as [|c text IH]; [reflexivity|]. simpl.
  destruct (Ascii.eqb c _) eqn:Hc; [reflexivity|]. simpl.
  by rewrite Hc, IH.
Qed.

(** X14.  A manual field is labelled Formula, Rollup, Lookup or Count
    after its type, and the description built for it is a single line,
    whatever its options hold. *)
Theorem manual_label_and_description (field : RawField) :
  classifyField field = manual ->
  (rf_type field, typeLabel field)
  ∈ [("formula", "Formula"); ("rollup", "Rollup");
     ("multipleLookupValues", "Lookup"); ("count", "Count")]
  /\ one_line (description (buildManualInstructions field)) = true.
Proof.
  intros Hc.
  assert (Hty : rf_type field ∈ NON_CREATABLE_TYPES).
  { apply has_elem_of. unfold classifyField in Hc.
    destruct (has NON_CREATABLE_TYPES _); [reflexivity|].
    by repeat case_match. }
  unfold buildManualInstructions, typeLabel. simpl.
  rewrite !one_line_app, one_line_first_line.
  unfold NON_CREATABLE_TYPES in Hty.
  repeat (apply elem_of_cons in Hty as [->|Hty]);
    [| | | | by apply not_elem_of_nil in Hty];
    (split; [by repeat constructor | reflexivity]).
Qed.

Lemma manual_label_and_description_witness :
  one_line
    (description
       (buildManualInstructions
          (field_of "fld1" "Total" "rollup"
             (looks_up (Some "fldA2") (Some "fldB2"))))) = true.
Proof.
  apply (manual_label_and_description
           (field_of "fld1" "Total" "rollup"
              (looks_up (Some "fldA2") (Some "fldB2")))).
  reflexivity.
Defined.

(** X15.  The exporter returns one table per raw table, in the same
    order, each with the raw table's id, name and primary field id and
    with its description or the empty string; [tableCount] is the number
    of raw tables, and the schema is named [baseName], or "Airtable Base"
    when that is missing or empty. *)
Theorem tables_carried_over (now : string) (rawSchema : RawSchema)
    (baseName : option string) :
  let out := processSchema now rawSchema baseName in
  Forall2
    (fun table t =>
       nt_originalId t = rt_id table /\ nt_name t = rt_name table
       /\ nt_primaryFieldId t = rt_primaryFieldId table
       /\ nt_description t
          = match rt_description table with
            | Some d => d
            | None => EmptyString
            end)
    (rs_tables rawSchema) (ns_tables out)
  /\ ns_tableCount out = length (rs_tables rawSchema)
  /\ ns_exportedAt out = now
  /\ ns_name out
     = match baseName with
       | Some (String c name) => String c name
       | _ => "Airtable Base"
       end.
Proof.
  intros out. split_and!.
  - unfold out. rewrite processSchema_tables. apply Forall2_fmap_diag.
    intros table _. simpl. split_and!; try reflexivity.
    by destruct (rt_description table) as [[|c d]|].
  - change (ns_tableCount out) with (length (ns_tables out)).
    unfold out. by rewrite processSchema_tables, length_fmap.
  - reflexivity.
  - by destruct baseName as [[|c name]|].
Qed.

Lemma NoDup_fmap_inj {A} (f : A -> string) (l : list A) x y :
  NoDup (f <$> l) -> x ∈ l -> y ∈ l -> f x = f y -> x = y.
Proof.
  intros Hnd Hx Hy Hf.
  apply list_elem_of_lookup in Hx as [i Hi].
  apply list_elem_of_lookup in Hy as [j Hj].
  assert (i = j) as ->; [|congruence].
  eapply NoDup_lookup; [exact Hnd| |].
  - rewrite list_lookup_fmap, Hi. reflexivity.
  - rewrite list_lookup_fmap, Hj. simpl. by rewrite Hf.
Qed.

(** X16.  When no two tables share an id, a read of [tableIdToName]
    under the id of a table gives that table's name, unless the id is
    [__proto__]; a read under [__proto__] gives [Object.prototype],
    whatever the tables are; and a read under a key that is no table's
    id gives the member of [Object.prototype] of that name when there is
    one, and nothing otherwise. *)
Theorem tableIdToName_round_trip (tables : list NormalizedTable) :
  NoDup (nt_originalId <$> tables) ->
  (forall t, t ∈ tables -> nt_originalId t <> "__proto__" ->
     obj_get (tableIdToName tables) (nt_originalId t)
     = Some (Str (nt_name t)))
  /\ obj_get (tableIdToName tables) "__proto__"
     = Some (Inherited "__proto__")
  /\ (forall key, key ∉ nt_originalId <$> tables ->
        obj_get (tableIdToName tables) key
        = if inherited key then Some (Inherited key) else None).
Proof.
  intros Hids. split_and!.
  - intros t Ht Hproto. rewrite tableIdToName_get. unfold stored.
    apply String.eqb_neq in Hproto. rewrite Hproto.
    destruct (last (tables_with_id tables (nt_originalId t)))
      as [u|] eqn:Hlast.
    + apply last_Some_elem_of, list_elem_of_filter in Hlast as [Hid Hu].
      by rewrite (NoDup_fmap_inj nt_originalId tables u t Hids Hu Ht Hid).
    + apply last_None in Hlast. exfalso.
      by apply (filter_nil_not_elem_of _ _ t Hlast eq_refl).
  - by rewrite tableIdToName_get.
  - intros key Hkey. rewrite tableIdToName_get. unfold stored.
    destruct (String.eqb key "__proto__"); [reflexivity|].
    destruct (last (tables_with_id tables key)) as [u|] eqn:Hlast;
      [|reflexivity].
    apply last_Some_elem_of, list_elem_of_filter in Hlast as [Hu Hin].
    destruct Hkey. apply list_elem_of_fmap. by exists u.
Qed.

Lemma tableIdToName_round_trip_witness :
  obj_get (tableIdToName scenario_tables) "tblB" = Some (Str "B").
Proof.
  apply (tableIdToName_round_trip scenario_tables)
    with (t := table_at scenario_tables 1).
  - vm_compute. apply NoDup_cons. split.
    + intros H. apply list_elem_of_singleton in H. discriminate H.
    + apply NoDup_singleton.
  - vm_compute. apply list_elem_of_further, list_elem_of_here.
  - vm_compute. discriminate.
Defined.

Lemma nf_originalId_normalizeField field :
  nf_originalId (normalizeField field) = rf_id field.
Proof. unfold normalizeField. by destruct (classifyField field). Qed.

(** The records of the first pass come from raw fields of their
    category. *)
Lemma firstPass_field rawSchema c t f :
  t ∈ firstPass rawSchema -> f ∈ partition c t ->
  exists table field,
    table ∈ rs_tables rawSchema /\ field ∈ rt_fields table
    /\ classifyField field = c /\ f = normalizeField field.
Proof.
  unfold firstPass. intros Ht Hf.
  apply list_elem_of_fmap in Ht as (table & -> & Htable).
  rewrite processTable_partition in Hf.
  apply list_elem_of_fmap in Hf as (field & -> & Hfield).
  apply list_elem_of_filter in Hfield as [Hc Hin].
  by exists table, field.
Qed.

Lemma filter_none {A} (P : A -> Prop) `{forall x, Decision (P x)}
    (l : list A) :
  (forall x, x ∈ l -> ~ P x) -> filter P l = [].
Proof.
  induction l as [|x l IH]; intros Hno; [reflexivity|].
  rewrite filter_cons, decide_False by (apply Hno, list_elem_of_here).
  apply IH. intros y Hy. by apply Hno, list_elem_of_further.
Qed.

Lemma omap_none {A B} (f : A -> option B) (l : list A) :
  (forall x, x ∈ l -> f x = None) -> omap f l = [].
Proof.
  induction l as [|x l IH]; intros Hno; [reflexivity|]. simpl.
  rewrite (Hno x) by apply list_elem_of_here.
  apply IH. intros y Hy. by apply Hno, list_elem_of_further.
Qed.

(** X17.  When the [recordLinkFieldId] of a manual field is the id of no
    creatable or link field of the schema, as when it names the inverse
    side of a link, the second pass resolves nothing for that field: its
    two texts stay as built, raw [fieldIdInLinkedTable] included. *)
Theorem unreachable_link_keeps_ids (now : string) (rawSchema : RawSchema)
    (baseName : option string) :
  Forall2
    (fun table t =>
       Forall2
         (fun field f =>
            forall l,
              opt field recordLinkFieldId = Some l ->
              (forall table' g,
                 table' ∈ rs_tables rawSchema -> g ∈ rt_fields table' ->
                 rf_id g = l ->
                 classifyField g <> creatable /\ classifyField g <> link) ->
              let i := buildManualInstructions field in
              nf_manualCellInstructions f = Some (cellInstructions i)
              /\ nf_manualDescription f = Some (description i))
         (of_category manual (rt_fields table)) (manualFields t))
    (rs_tables rawSchema)
    (ns_tables (processSchema now rawSchema baseName)).
Proof.
  rewrite processSchema_tables. apply Forall2_fmap_diag.
  intros table _.
  change (manualFields ?t) with (partition manual t).
  rewrite resolveTable_partition. apply Forall2_fmap_diag.
  intros field Hfield l Hl Hother i.
  apply list_elem_of_filter in Hfield as [Hc _].
  destruct (manual_texts_set field Hc) as (Hcell & Hdesc & Ho).
  cbn [exported].
  destruct (resolveManual_texts (firstPass rawSchema) (normalizeField field)
              _ Ho) as [Hc' Hd'].
  rewrite Hc', Hd', Hcell, Hdesc. simpl.
  unfold opt in Hl. destruct (rf_options field) as [o|]; [|discriminate Hl].
  simpl in Hl |- *.
  rewrite !resolved_text_unmatched; [done| |].
  all: split.
  all: try (intros id Hid; rewrite Hl in Hid; injection Hid as <-;
            unfold recordLinkRefs; rewrite filter_none; [reflexivity|];
            intros f Hf Hidf;
            apply list_elem_of_bind in Hf as (t & Hf & Ht);
            apply elem_of_app in Hf as [Hf|Hf];
            [ destruct (firstPass_field rawSchema creatable t f Ht Hf)
                as (table' & g & Htable' & Hg & Hcg & ->)
            | destruct (firstPass_field rawSchema link t f Ht Hf)
                as (table' & g & Htable' & Hg & Hcg & ->) ];
            rewrite nf_originalId_normalizeField in Hidf;
            destruct (Hother table' g Htable' Hg Hidf); congruence).
  all: intros fid Hfid; rewrite Hl; unfold linkedFieldRefs;
    apply omap_none; intros f Hf;
    apply list_elem_of_bind in Hf as (t & Hf & Ht);
    unfold linkedFieldRef;
    apply elem_of_app in Hf as [Hf|Hf].
  all: try (destruct (firstPass_field rawSchema link t f Ht Hf)
              as (table' & g & Htable' & Hg & Hcg & ->);
            case_decide as Hid; [|reflexivity];
            injection Hid as Hid;
            rewrite nf_originalId_normalizeField in Hid;
            destruct (Hother table' g Htable' Hg (eq_sym Hid)); congruence).
  all: destruct (firstPass_field rawSchema inverseLink t f Ht Hf)
         as (table' & g & Htable' & Hg & Hcg & ->);
    case_decide; [|reflexivity];
    unfold normalizeField; by rewrite Hcg.
Qed.

(** In the schema [inverse_rollup] the rollup of table A keeps the id of
    B's Amount. *)
Lemma unreachable_link_keeps_ids_witness :
  nf_manualDescription
    (manual_at
       (table_at (ns_tables (processSchema EmptyString inverse_rollup None))
          0) 0)
  = Some "⚠️ MANUAL SETUP REQUIRED — Rollup: Summarize field: fldB2".
Proof.
  pose proof (unreachable_link_keeps_ids EmptyString inverse_rollup None)
    as Hkeep.
  unfold table_at, manual_at.
  remember (ns_tables _) as tables eqn:E. vm_compute in E.
  destruct (Forall2_lookup_l _ _ _ 0 _ Hkeep eq_refl) as (t & Ht & Hfields).
  subst tables. injection Ht as <-.
  destruct (Forall2_lookup_l _ _ _ 0 _ Hfields eq_refl) as (f & Hf & Hfield).
  injection Hf as <-.
  destruct (Hfield "fldA2" eq_refl) as [_ Hdesc]; [|exact Hdesc].
  intros table' g Htable' Hg Hid.
  unfold inverse_rollup in Htable'. simpl in Htable'.
  repeat (apply elem_of_cons in Htable' as [->|Htable']);
    [| |by apply not_elem_of_nil in Htable'];
    simpl in Hg;
    repeat (apply elem_of_cons in Hg as [->|Hg]);
    try (by apply not_elem_of_nil in Hg);
    try discriminate Hid.
  split; discriminate.
Defined.

End ExporterMore.
